(** * Behavior tree engine: IBehaviorTreeNode, Fallback, Sequence, the
      example execution nodes and BehaviorTree.

    Shallow embedding of the behavior tree translation unit.  Nodes are heap
    objects reached through raw pointers ([t_nodeRawPtr]); the program state
    is the node memory together with the lines written to [cout].  Virtual
    dispatch of [update] is a match on the dynamic class of the object. *)

From Stdlib Require Import ZArith.
From stdpp Require Import base list strings.

Local Open Scope string_scope.
Local Open Scope list_scope.

(** ** Outcomes of running a piece of the program *)

(** [Ok] is a normal return.  [Undefined] is undefined behaviour of the C++
    program: a null pointer, or a pointer that designates no live node, is
    dereferenced.  [OutOfFuel] belongs to the model only: the recursion of
    [update] is bounded by a fuel argument. *)
Inductive res (A : Type) : Type :=
  | Ok (a : A)
  | Undefined
  | OutOfFuel.
Arguments Ok {A} a.
Arguments Undefined {A}.
Arguments OutOfFuel {A}.

(** ** IBehaviorTreeNode *)

Inductive e_status : Type := SUCCESS | FAILURE | UNKNOWN.

Inductive e_nodeType : Type := SEQUENCE | FALLBACK | ACTION | CONDITION.

(** The classes derived from IBehaviorTreeNode: the dynamic type of a node
    object, which selects the override of [update]. *)
Inductive NodeClass : Type :=
  | Fallback | Sequence | Esto | Aquello | Uno | Dos | Tres.

#[global] Instance e_status_eq_dec : EqDecision e_status.
Proof. solve_decision. Defined.
#[global] Instance e_nodeType_eq_dec : EqDecision e_nodeType.
Proof. solve_decision. Defined.
#[global] Instance NodeClass_eq_dec : EqDecision NodeClass.
Proof. solve_decision. Defined.

(** A raw pointer to a node: [None] is nullptr, [Some a] the address [a].
    Addresses index the node memory. *)
Definition t_nodeRawPtr : Type := option nat.
Definition nullptr : t_nodeRawPtr := None.

(** The [float] argument of [update] is carried as its binary32 bit pattern;
    no override of [update] inspects it. *)
Definition float : Type := Z.

(** A node object: its dynamic class and the three protected members. *)
Record IBehaviorTreeNode : Type := mkNode {
  dyn_class : NodeClass;
  m_type : e_nodeType;
  m_parent : t_nodeRawPtr;
  m_children : list t_nodeRawPtr
}.

#[global] Instance IBehaviorTreeNode_eq_dec : EqDecision IBehaviorTreeNode.
Proof. solve_decision. Defined.

(** The program state: the node objects allocated so far, by address, and
    the lines written to [cout] (one entry for each [endl]). *)
Record World : Type := mkWorld {
  mem : list IBehaviorTreeNode;
  cout : list string
}.

Definition empty_world : World := {| mem := []; cout := [] |}.

(** ** State and error monad of the embedding *)

Definition M (A : Type) : Type := World -> res (A * World).

Definition ret {A} (a : A) : M A := fun w => Ok (a, w).

Definition bind {A B} (c : M A) (k : A -> M B) : M B :=
  fun w =>
    match c w with
    | Ok (a, w') => k a w'
    | Undefined => Undefined
    | OutOfFuel => OutOfFuel
    end.

Definition undefined_behaviour {A} : M A := fun _ => Undefined.
Definition out_of_fuel {A} : M A := fun _ => OutOfFuel.

Declare Scope bt_scope.
Delimit Scope bt_scope with bt.
Notation "x <- c ;; k" := (bind c (fun x => k))
  (at level 100, c at next level, right associativity) : bt_scope.
Notation "c ;; k" := (bind c (fun _ => k))
  (at level 100, right associativity) : bt_scope.
Local Open Scope bt_scope.

(** [*p]: the node a pointer designates. *)
Definition deref (p : t_nodeRawPtr) : M IBehaviorTreeNode :=
  fun w =>
    match p with
    | None => undefined_behaviour w
    | Some a =>
        match mem w !! a with
        | Some node => ret node w
        | None => undefined_behaviour w
        end
    end.

(** Assignment to the object a pointer designates. *)
Definition store (p : t_nodeRawPtr) (node : IBehaviorTreeNode) : M unit :=
  fun w =>
    match p with
    | None => undefined_behaviour w
    | Some a =>
        match mem w !! a with
        | Some _ => ret tt {| mem := <[a := node]> (mem w); cout := cout w |}
        | None => undefined_behaviour w
        end
    end.

(** [new]: the object is placed at the next free address. *)
Definition alloc (node : IBehaviorTreeNode) : M t_nodeRawPtr :=
  fun w => Ok (Some (length (mem w)),
               {| mem := mem w ++ [node]; cout := cout w |}).

(** [cout << line << endl]. *)
Definition cout_endl (line : string) : M unit :=
  fun w => Ok (tt, {| mem := mem w; cout := cout w ++ [line] |}).

(** The constructor of the base class. *)
Definition IBehaviorTreeNode_ctor (cls : NodeClass) (type : e_nodeType)
  : IBehaviorTreeNode :=
  {| dyn_class := cls; m_type := type; m_parent := nullptr; m_children := [] |}.

Definition getNodeType (this : t_nodeRawPtr) : M e_nodeType :=
  node <- deref this ;; ret (m_type node).

Definition getParent (this : t_nodeRawPtr) : M t_nodeRawPtr :=
  node <- deref this ;; ret (m_parent node).

Definition hasChildren (this : t_nodeRawPtr) : M bool :=
  node <- deref this ;;
  ret (match m_children node with [] => false | _ :: _ => true end).

Definition getChildren (this : t_nodeRawPtr) : M (list t_nodeRawPtr) :=
  node <- deref this ;; ret (m_children node).

(** [obj] with [c] pushed onto its child list. *)
Definition with_child (obj : IBehaviorTreeNode) (c : t_nodeRawPtr)
  : IBehaviorTreeNode :=
  {| dyn_class := dyn_class obj; m_type := m_type obj;
     m_parent := m_parent obj; m_children := m_children obj ++ [c] |}.

(** [m_children.push_back(node)]. *)
Definition addChildren (this : t_nodeRawPtr) (node : t_nodeRawPtr) : M unit :=
  obj <- deref this ;;
  store this (with_child obj node).

Definition nodeStatusToString (status : e_status) : string :=
  match status with
  | FAILURE => "FAILURE"
  | SUCCESS => "SUCCESS"
  | UNKNOWN => "UNKNOWN!"
  end.

(** ** Control nodes *)

Definition Fallback_ctor : IBehaviorTreeNode :=
  IBehaviorTreeNode_ctor Fallback FALLBACK.

Definition Sequence_ctor : IBehaviorTreeNode :=
  IBehaviorTreeNode_ctor Sequence SEQUENCE.

(** The range-for of [Fallback::update] over [this->m_children];
    [child_update] stands for the virtual call [child->update(dt)]. *)
Fixpoint Fallback_for (child_update : t_nodeRawPtr -> float -> M e_status)
    (children : list t_nodeRawPtr) (dt : float) : M e_status :=
  match children with
  | [] => ret FAILURE
  | child :: rest =>
      st <- child_update child dt ;;
      if decide (st = SUCCESS) then ret SUCCESS
      else Fallback_for child_update rest dt
  end.

Definition Fallback_update (child_update : t_nodeRawPtr -> float -> M e_status)
    (this : t_nodeRawPtr) (dt : float) : M e_status :=
  cout_endl "Running FALLBACK" ;;
  obj <- deref this ;;
  Fallback_for child_update (m_children obj) dt.

(** The range-for of [Sequence::update]. *)
Fixpoint Sequence_for (child_update : t_nodeRawPtr -> float -> M e_status)
    (children : list t_nodeRawPtr) (dt : float) : M e_status :=
  match children with
  | [] => ret SUCCESS
  | child :: rest =>
      st <- child_update child dt ;;
      if decide (st = FAILURE) then ret FAILURE
      else Sequence_for child_update rest dt
  end.

Definition Sequence_update (child_update : t_nodeRawPtr -> float -> M e_status)
    (this : t_nodeRawPtr) (dt : float) : M e_status :=
  cout_endl "Running SEQUENCE" ;;
  obj <- deref this ;;
  Sequence_for child_update (m_children obj) dt.

(** ** Execution nodes *)

Definition Esto_ctor : IBehaviorTreeNode := IBehaviorTreeNode_ctor Esto ACTION.
Definition Aquello_ctor : IBehaviorTreeNode := IBehaviorTreeNode_ctor Aquello ACTION.
Definition Uno_ctor : IBehaviorTreeNode := IBehaviorTreeNode_ctor Uno ACTION.
Definition Dos_ctor : IBehaviorTreeNode := IBehaviorTreeNode_ctor Dos ACTION.
Definition Tres_ctor : IBehaviorTreeNode := IBehaviorTreeNode_ctor Tres ACTION.

Definition Esto_update (this : t_nodeRawPtr) (dt : float) : M e_status :=
  cout_endl ("Esto -> " +:+ nodeStatusToString FAILURE) ;;
  ret FAILURE.

Definition Aquello_update (this : t_nodeRawPtr) (dt : float) : M e_status :=
  cout_endl ("Aquello -> " +:+ nodeStatusToString FAILURE) ;;
  ret FAILURE.

Definition Uno_update (this : t_nodeRawPtr) (dt : float) : M e_status :=
  cout_endl ("Uno -> " +:+ nodeStatusToString SUCCESS) ;;
  ret SUCCESS.

Definition Dos_update (this : t_nodeRawPtr) (dt : float) : M e_status :=
  cout_endl ("Dos -> " +:+ nodeStatusToString SUCCESS) ;;
  ret SUCCESS.

Definition Tres_update (this : t_nodeRawPtr) (dt : float) : M e_status :=
  cout_endl ("Tres -> " +:+ nodeStatusToString SUCCESS) ;;
  ret SUCCESS.

(** ** The virtual call [this->update(dt)] *)

(** The call reads the dynamic class of the object [this] designates and
    runs that class's override.  [fuel] bounds the depth of nested calls. *)
Fixpoint update (fuel : nat) (this : t_nodeRawPtr) (dt : float) {struct fuel}
  : M e_status :=
  match fuel with
  | O => out_of_fuel
  | S fuel' =>
      obj <- deref this ;;
      match dyn_class obj with
      | Fallback => Fallback_update (update fuel') this dt
      | Sequence => Sequence_update (update fuel') this dt
      | Esto => Esto_update this dt
      | Aquello => Aquello_update this dt
      | Uno => Uno_update this dt
      | Dos => Dos_update this dt
      | Tres => Tres_update this dt
      end
  end.

(** ** BehaviorTree *)

Record BehaviorTree : Type := mkTree {
  m_root : t_nodeRawPtr;
  m_nodes : list t_nodeRawPtr
}.

(** The class declares no constructor: a default-initialised BehaviorTree
    has an empty node storage and a root pointer that is not initialised.
    [indeterminate] is the value the root pointer happens to hold. *)
Definition BehaviorTree_default (indeterminate : t_nodeRawPtr) : BehaviorTree :=
  {| m_root := indeterminate; m_nodes := [] |}.

(** [std::make_unique<NodeClass>()]. *)
Definition make_unique (cls : NodeClass) : M t_nodeRawPtr :=
  alloc match cls with
        | Fallback => Fallback_ctor
        | Sequence => Sequence_ctor
        | Esto => Esto_ctor
        | Aquello => Aquello_ctor
        | Uno => Uno_ctor
        | Dos => Dos_ctor
        | Tres => Tres_ctor
        end.

(** [create<NodeClass>()]: the new object is owned by [m_nodes]; the raw
    pointer to it is returned. *)
Definition create (cls : NodeClass) (bt : BehaviorTree)
  : M (t_nodeRawPtr * BehaviorTree) :=
  reference <- make_unique cls ;;
  ret (reference,
       {| m_root := m_root bt; m_nodes := m_nodes bt ++ [reference] |}).

Definition setRoot (node : t_nodeRawPtr) (bt : BehaviorTree) : BehaviorTree :=
  {| m_root := node; m_nodes := m_nodes bt |}.

Definition run (fuel : nat) (bt : BehaviorTree) (dt : float) : M unit :=
  update fuel (m_root bt) dt ;; ret tt.

Definition getRoot (bt : BehaviorTree) : t_nodeRawPtr := m_root bt.

(** ** main *)

(** [1.0f / 60.0f] as a binary32 bit pattern. *)
Definition one_sixtieth : float := 0x3C888889%Z.

(** The tree built by [main], up to and including [setRoot]. *)
Definition main_build (indeterminate : t_nodeRawPtr) : M BehaviorTree :=
  let bt := BehaviorTree_default indeterminate in
  c <- create Sequence bt ;; let '(sequence1, bt) := c in
  c <- create Fallback bt ;; let '(fallback1, bt) := c in
  c <- create Esto bt ;; let '(esto, bt) := c in
  c <- create Aquello bt ;; let '(aquello, bt) := c in
  c <- create Uno bt ;; let '(uno, bt) := c in
  c <- create Dos bt ;; let '(dos, bt) := c in
  c <- create Tres bt ;; let '(tres, bt) := c in
  addChildren fallback1 esto ;;
  addChildren fallback1 aquello ;;
  addChildren fallback1 sequence1 ;;
  addChildren sequence1 uno ;;
  addChildren sequence1 dos ;;
  addChildren sequence1 tres ;;
  ret (setRoot fallback1 bt).

Definition main (fuel : nat) (indeterminate : t_nodeRawPtr) : M Z :=
  bt <- main_build indeterminate ;;
  run fuel bt one_sixtieth ;;
  ret 0%Z.

(** ** Host programs *)

(** The operations a host can perform on a BehaviorTree and on the nodes it
    created: everything the two classes declare public. *)
Inductive op : Type :=
  | OpCreate (cls : NodeClass)
  | OpSetRoot (node : t_nodeRawPtr)
  | OpRun (dt : float)
  | OpGetRoot
  | OpUpdate (this : t_nodeRawPtr) (dt : float)
  | OpGetNodeType (this : t_nodeRawPtr)
  | OpGetParent (this : t_nodeRawPtr)
  | OpHasChildren (this : t_nodeRawPtr)
  | OpGetChildren (this : t_nodeRawPtr)
  | OpAddChildren (this node : t_nodeRawPtr).

Definition exec (fuel : nat) (o : op) (bt : BehaviorTree) : M BehaviorTree :=
  match o with
  | OpCreate cls => c <- create cls bt ;; ret (snd c)
  | OpSetRoot node => ret (setRoot node bt)
  | OpRun dt => run fuel bt dt ;; ret bt
  | OpGetRoot => ret bt
  | OpUpdate this dt => update fuel this dt ;; ret bt
  | OpGetNodeType this => getNodeType this ;; ret bt
  | OpGetParent this => getParent this ;; ret bt
  | OpHasChildren this => hasChildren this ;; ret bt
  | OpGetChildren this => getChildren this ;; ret bt
  | OpAddChildren this node => addChildren this node ;; ret bt
  end.

Fixpoint exec_all (fuel : nat) (ops : list op) (bt : BehaviorTree)
  : M BehaviorTree :=
  match ops with
  | [] => ret bt
  | o :: rest => bt' <- exec fuel o bt ;; exec_all fuel rest bt'
  end.

Definition is_setRoot (o : op) : bool :=
  match o with OpSetRoot _ => true | _ => false end.

(** ** Specification vocabulary *)

(** [tree_ok depth m p]: [p] designates a live node of [m], so does every
    pointer reachable from it through child lists, and no chain of child
    links from [p] is longer than [depth]: below [p] the graph is finite
    and free of cycles. *)
Fixpoint tree_ok (depth : nat) (m : list IBehaviorTreeNode) (p : t_nodeRawPtr)
  : bool :=
  match depth with
  | O => false
  | S d =>
      match p with
      | None => false
      | Some a =>
          match m !! a with
          | None => false
          | Some obj => forallb (tree_ok d m) (m_children obj)
          end
      end
  end.

(** The node [c] evaluates to [st] when updated in world [w]. *)
Definition evaluates_to (fuel : nat) (w : World) (dt : float)
    (c : t_nodeRawPtr) (st : e_status) : Prop :=
  exists w', update fuel c dt w = Ok (st, w').

(** [invoked_in_order f dt cs w sts w']: starting in world [w], the nodes
    [cs] are invoked one after the other in list order, each one exactly
    once and each in the world its predecessor left; they return the
    statuses [sts] and the last one leaves the world [w']. *)
Inductive invoked_in_order (f : t_nodeRawPtr -> float -> M e_status)
    (dt : float)
  : list t_nodeRawPtr -> World -> list e_status -> World -> Prop :=
  | invoked_nil w : invoked_in_order f dt [] w [] w
  | invoked_cons c cs w st w1 sts w2 :
      f c dt w = Ok (st, w1) ->
      invoked_in_order f dt cs w1 sts w2 ->
      invoked_in_order f dt (c :: cs) w (st :: sts) w2.

(** A computation that only writes the lines [out] and returns [r],
    whatever was written before, in every world with the node memory of
    [w]. *)
Definition writes {A} (c : M A) (w : World) (r : A) (out : list string)
  : Prop :=
  forall v, mem v = mem w ->
    c v = Ok (r, {| mem := mem v; cout := cout v ++ out |}).

(** The contract every override of [update] in this file meets. *)
Definition stateless (f : t_nodeRawPtr -> float -> M e_status) : Prop :=
  forall p dt w r w',
    f p dt w = Ok (r, w') ->
    r <> UNKNOWN /\ exists out, out <> [] /\ writes (f p dt) w r out.

(** The lines a computation appended to [cout]. *)
Definition emitted (w w' : World) : list string :=
  drop (length (cout w)) (cout w').

(** [f] returns on [c] in every world with the node memory of [v0]. *)
Definition returns_on (f : t_nodeRawPtr -> float -> M e_status) (dt : float)
    (v0 : World) (c : t_nodeRawPtr) : Prop :=
  forall w, mem w = mem v0 -> exists r w', f c dt w = Ok (r, w').

(** [f] returns [st] on [c] in the world [v0]. *)
Definition gives (f : t_nodeRawPtr -> float -> M e_status) (dt : float)
    (v0 : World) (c : t_nodeRawPtr) (st : e_status) : Prop :=
  exists v', f c dt v0 = Ok (st, v').

(** The three ways an operation can leave the node memory. *)
Inductive mem_step (m : list IBehaviorTreeNode)
  : list IBehaviorTreeNode -> Prop :=
  | step_same : mem_step m m
  | step_new cls type :
      mem_step m (m ++ [IBehaviorTreeNode_ctor cls type])
  | step_push a obj c :
      m !! a = Some obj -> mem_step m (<[a := with_child obj c]> m).

(** Children are only ever appended. *)
Definition children_kept (m m' : list IBehaviorTreeNode) : Prop :=
  forall b old, m !! b = Some old ->
    exists new, m' !! b = Some new /\ m_children old `prefix_of` m_children new.

(** No parent pointer is set. *)
Definition parents_null (m : list IBehaviorTreeNode) : Prop :=
  Forall (fun obj => m_parent obj = nullptr) m.

(** The world and tree [main] has built when it calls [run]. *)
Definition main_world : World :=
  Eval vm_compute in
    match main_build nullptr empty_world with
    | Ok (_, w) => w
    | _ => empty_world
    end.

Definition main_tree : BehaviorTree :=
  Eval vm_compute in
    match main_build nullptr empty_world with
    | Ok (bt, _) => bt
    | _ => BehaviorTree_default nullptr
    end.

(** Two nodes fresh from their constructors. *)
Definition childless_world : World :=
  {| mem := [Sequence_ctor; Fallback_ctor]; cout := [] |}.

(** Esto, at address 2, has been linked as a child of the Fallback. *)
Definition link_esto : list op :=
  [OpCreate Sequence; OpCreate Fallback; OpCreate Esto;
   OpAddChildren (Some 1) (Some 2); OpSetRoot (Some 1); OpRun one_sixtieth].

(** A Sequence over Uno, Esto and Tres. *)
Definition scenario_B_world : World :=
  {| mem := [mkNode Sequence SEQUENCE nullptr [Some 1; Some 2; Some 3];
             Uno_ctor; Esto_ctor; Tres_ctor];
     cout := [] |}.

(** The object [std::make_unique<cls>()] constructs. *)
Definition constructed (cls : NodeClass) : IBehaviorTreeNode :=
  match cls with
  | Fallback => Fallback_ctor
  | Sequence => Sequence_ctor
  | Esto => Esto_ctor
  | Aquello => Aquello_ctor
  | Uno => Uno_ctor
  | Dos => Dos_ctor
  | Tres => Tres_ctor
  end.

(** The node type each class passes to the base-class constructor. *)
Definition type_of_class (cls : NodeClass) : e_nodeType :=
  m_type (constructed cls).

(** The root pointer a host program leaves: the argument of its last
    [setRoot], or [init] when it calls none. *)
Definition last_setRoot (ops : list op) (init : t_nodeRawPtr) : t_nodeRawPtr :=
  foldl (fun root o => match o with OpSetRoot node => node | _ => root end)
    init ops.

(** The status of a node as a formula over the tree: a Sequence is the
    conjunction and a Fallback the disjunction of its children, Esto and
    Aquello are false, Uno, Dos and Tres are true. *)
Fixpoint succeeds (depth : nat) (m : list IBehaviorTreeNode) (p : t_nodeRawPtr)
  : bool :=
  match depth with
  | O => false
  | S d =>
      match p ≫= (m !!.) with
      | None => false
      | Some obj =>
          match dyn_class obj with
          | Sequence => forallb (succeeds d m) (m_children obj)
          | Fallback => existsb (succeeds d m) (m_children obj)
          | Esto | Aquello => false
          | Uno | Dos | Tres => true
          end
      end
  end.

Definition status_of_bool (b : bool) : e_status :=
  if b then SUCCESS else FAILURE.

(** A Fallback whose first child succeeds; its other child pointers are
    null and dangling. *)
Definition shielded_fallback_world : World :=
  {| mem := [mkNode Fallback FALLBACK nullptr [Some 1; nullptr; Some 7];
             Uno_ctor];
     cout := [] |}.

(** A Sequence whose first child fails before a null pointer. *)
Definition shielded_sequence_world : World :=
  {| mem := [mkNode Sequence SEQUENCE nullptr [Some 1; nullptr];
             Esto_ctor];
     cout := [] |}.

(** A Sequence that reaches a null child. *)
Definition null_child_world : World :=
  {| mem := [mkNode Sequence SEQUENCE nullptr [Some 1; nullptr];
             Uno_ctor];
     cout := [] |}.

(** A Sequence that was added to itself. *)
Definition self_child_world : World :=
  {| mem := [mkNode Sequence SEQUENCE nullptr [Some 0]]; cout := [] |}.

(** [f] does on [c], in a memory that holds the nodes [extra] after those
    of [m], what it does in [m]. *)
Definition carries_over (f : t_nodeRawPtr -> float -> M e_status) (dt : float)
    (m extra : list IBehaviorTreeNode) (c : t_nodeRawPtr) : Prop :=
  forall w r w' v,
    mem w = m -> f c dt w = Ok (r, w') -> mem v = m ++ extra ->
    f c dt v = Ok (r, {| mem := mem v; cout := cout v ++ emitted w w' |}).

(** * The widget factory and its rendering visitor

    Shallow embedding of the widget translation unit: IWidget, Button,
    Checkbox, RenderUI and UserInterface.  Widgets are heap objects owned
    by the UserInterface; the state is the widget memory and [cout].  The
    callback of a Button is a [std::function]; it is carried as a value of
    a type [t_slot] the embedding does not look into, so [Button::onClick],
    which invokes it, is not embedded. *)

Module Gui.

(** [SDL_Event], [AppTheme] and [RenderUI] are classes without members. *)
Definition SDL_Event : Type := unit.
Definition AppTheme : Type := unit.
Definition RenderUI : Type := unit.

(** [Rect<float>]. *)
Record Rect : Type := mkRect { x : float; y : float; w : float; h : float }.

Inductive e_widgetType : Type :=
  | PANEL | TAB | CHECKBOX | SLIDER | TEXTBOX | IMAGE_VIEW | BUTTON
  | RADIO_BUTTON | RADIO_BUTTON_GROUP.

(** The members of the base class. *)
Record IWidget : Type := mkIWidget {
  m_type : e_widgetType;
  m_dimension : Rect;
  m_active : bool;
  m_visible : bool;
  m_resizable : bool;
  m_movable : bool
}.

Definition IWidget_ctor (type : e_widgetType) (dimension : Rect) : IWidget :=
  {| m_type := type; m_dimension := dimension;
     m_active := true; m_visible := true;
     m_resizable := false; m_movable := false |}.

Inductive e_buttonSize : Type := SMALL | MEDIUM | LARGE.

Record Button (t_slot : Type) : Type := mkButton {
  Button_base : IWidget;
  Button_m_text : string;
  m_size : e_buttonSize;
  m_hover : bool;
  m_slot : t_slot
}.
Arguments mkButton {t_slot}.
Arguments Button_base {t_slot}.
Arguments Button_m_text {t_slot}.
Arguments m_size {t_slot}.
Arguments m_hover {t_slot}.
Arguments m_slot {t_slot}.

Record Checkbox : Type := mkCheckbox {
  Checkbox_base : IWidget;
  Checkbox_m_text : string;
  m_checked : bool;
  m_greyedOut : bool
}.

(** A widget object with its dynamic class. *)
Inductive Widget (t_slot : Type) : Type :=
  | WButton (b : Button t_slot)
  | WCheckbox (c : Checkbox).
Arguments WButton {t_slot}.
Arguments WCheckbox {t_slot}.

(** The state: the widget objects by address and the lines on [cout]. *)
Record World (t_slot : Type) : Type := mkWorld {
  widgets : list (Widget t_slot);
  cout : list string
}.
Arguments mkWorld {t_slot}.
Arguments widgets {t_slot}.
Arguments cout {t_slot}.

(** [IWidget*]: [None] is nullptr. *)
Definition t_widgetRawPtr : Type := option nat.

Record UserInterface : Type := mkUI {
  m_widgets : list t_widgetRawPtr;
  m_currentMouseOver : t_widgetRawPtr;
  m_theme : AppTheme;
  m_renderer : RenderUI
}.

(** The constructor arguments [add<WidgetType>] forwards, after the
    theme. *)
Inductive WidgetArgs (t_slot : Type) : Type :=
  | CheckboxArgs (dimension : Rect) (text : string) (checked grayedOut : bool)
  | ButtonArgs (dimension : Rect) (text : string) (clickedSlot : t_slot)
      (buttonSize : e_buttonSize).
Arguments CheckboxArgs {t_slot}.
Arguments ButtonArgs {t_slot}.

Section Slots.
Context {t_slot : Type}.

Definition M (A : Type) : Type := World t_slot -> res (A * World t_slot).

Definition ret {A} (a : A) : M A := fun g => Ok (a, g).

Definition bind {A B} (c : M A) (k : A -> M B) : M B :=
  fun g =>
    match c g with
    | Ok (a, g') => k a g'
    | Undefined => Undefined
    | OutOfFuel => OutOfFuel
    end.

Definition undefined_behaviour {A} : M A := fun _ => Undefined.

Declare Scope gui_scope.
Notation "x <- c ;; k" := (bind c (fun x => k))
  (at level 100, c at next level, right associativity) : gui_scope.
Notation "c ;; k" := (bind c (fun _ => k))
  (at level 100, right associativity) : gui_scope.
Local Open Scope gui_scope.

Definition deref (p : t_widgetRawPtr) : M (Widget t_slot) :=
  fun g =>
    match p ≫= (widgets g !!.) with
    | Some obj => ret obj g
    | None => undefined_behaviour g
    end.

Definition store (p : t_widgetRawPtr) (obj : Widget t_slot) : M unit :=
  fun g =>
    match p with
    | Some a =>
        match widgets g !! a with
        | Some _ => ret tt {| widgets := <[a := obj]> (widgets g); cout := cout g |}
        | None => undefined_behaviour g
        end
    | None => undefined_behaviour g
    end.

Definition alloc (obj : Widget t_slot) : M t_widgetRawPtr :=
  fun g => Ok (Some (length (widgets g)),
               {| widgets := widgets g ++ [obj]; cout := cout g |}).

Definition cout_endl (line : string) : M unit :=
  fun g => Ok (tt, {| widgets := widgets g; cout := cout g ++ [line] |}).

(** A [Button*] and a [Checkbox*] designate objects of their class. *)
Definition as_Button (this : t_widgetRawPtr) : M (Button t_slot) :=
  obj <- deref this ;;
  match obj with WButton b => ret b | WCheckbox _ => undefined_behaviour end.

Definition as_Checkbox (this : t_widgetRawPtr) : M Checkbox :=
  obj <- deref this ;;
  match obj with WCheckbox c => ret c | WButton _ => undefined_behaviour end.

(** ** RenderUI *)

Definition RenderUI_render_Checkbox (renderer : RenderUI) (widget : Checkbox)
  : M unit :=
  cout_endl "- Rendering a Checkbox".

Definition RenderUI_render_Button (renderer : RenderUI)
    (widget : Button t_slot) : M unit :=
  cout_endl "- Rendering a Button".

(** ** Button *)

Definition Button_ctor (theme : AppTheme) (dimension : Rect) (text : string)
    (clickedSlot : t_slot) (buttonSize : e_buttonSize) : Button t_slot :=
  {| Button_base := IWidget_ctor BUTTON dimension;
     Button_m_text := text;
     m_size := buttonSize;
     m_hover := false;
     m_slot := clickedSlot |}.

Definition set_hover (b : Button t_slot) (hover : bool) : Button t_slot :=
  {| Button_base := Button_base b; Button_m_text := Button_m_text b;
     m_size := m_size b; m_hover := hover; m_slot := m_slot b |}.

Definition Button_onMouseOver (this : t_widgetRawPtr) : M unit :=
  b <- as_Button this ;; store this (WButton (set_hover b true)).

Definition Button_onMouseLeave (this : t_widgetRawPtr) : M unit :=
  b <- as_Button this ;; store this (WButton (set_hover b false)).

Definition Button_accept (this : t_widgetRawPtr) (renderer : RenderUI)
  : M unit :=
  b <- as_Button this ;; RenderUI_render_Button renderer b.

Definition Button_getText (this : t_widgetRawPtr) : M string :=
  b <- as_Button this ;; ret (Button_m_text b).

Definition Button_getButtonSize (this : t_widgetRawPtr) : M e_buttonSize :=
  b <- as_Button this ;; ret (m_size b).

Definition Button_isOnHover (this : t_widgetRawPtr) : M bool :=
  b <- as_Button this ;; ret (m_hover b).

(** ** Checkbox *)

Definition Checkbox_ctor (theme : AppTheme) (dimension : Rect) (text : string)
    (checked grayedOut : bool) : Checkbox :=
  {| Checkbox_base := IWidget_ctor CHECKBOX dimension;
     Checkbox_m_text := text;
     m_checked := checked;
     m_greyedOut := grayedOut |}.

Definition set_checked (c : Checkbox) (checked : bool) : Checkbox :=
  {| Checkbox_base := Checkbox_base c; Checkbox_m_text := Checkbox_m_text c;
     m_checked := checked; m_greyedOut := m_greyedOut c |}.

Definition Checkbox_onClick (this : t_widgetRawPtr) (event : SDL_Event)
  : M unit :=
  c <- as_Checkbox this ;;
  cout_endl (" -> Checkbox::onClick() -> '" +:+ Checkbox_m_text c +:+ "'") ;;
  if negb (m_greyedOut c)
  then store this (WCheckbox (set_checked c (negb (m_checked c))))
  else ret tt.

Definition Checkbox_accept (this : t_widgetRawPtr) (renderer : RenderUI)
  : M unit :=
  c <- as_Checkbox this ;; RenderUI_render_Checkbox renderer c.

Definition Checkbox_getText (this : t_widgetRawPtr) : M string :=
  c <- as_Checkbox this ;; ret (Checkbox_m_text c).

Definition Checkbox_isChecked (this : t_widgetRawPtr) : M bool :=
  c <- as_Checkbox this ;; ret (m_checked c).

Definition Checkbox_isGreyedOut (this : t_widgetRawPtr) : M bool :=
  c <- as_Checkbox this ;; ret (m_greyedOut c).

(** ** Virtual calls through [IWidget*] *)

Definition accept (this : t_widgetRawPtr) (renderer : RenderUI) : M unit :=
  obj <- deref this ;;
  match obj with
  | WButton _ => Button_accept this renderer
  | WCheckbox _ => Checkbox_accept this renderer
  end.

(** Checkbox inherits the empty [IWidget::onMouseOver] and
    [IWidget::onMouseLeave]. *)
Definition onMouseOver (this : t_widgetRawPtr) : M unit :=
  obj <- deref this ;;
  match obj with
  | WButton _ => Button_onMouseOver this
  | WCheckbox _ => ret tt
  end.

Definition onMouseLeave (this : t_widgetRawPtr) : M unit :=
  obj <- deref this ;;
  match obj with
  | WButton _ => Button_onMouseLeave this
  | WCheckbox _ => ret tt
  end.

(** ** UserInterface *)

Definition UserInterface_ctor (renderer : RenderUI) (theme : AppTheme)
  : UserInterface :=
  {| m_widgets := []; m_currentMouseOver := None;
     m_theme := theme; m_renderer := renderer |}.

(** [std::make_unique<WidgetType>(m_theme, args...)]. *)
Definition make_unique (theme : AppTheme) (args : WidgetArgs t_slot)
  : M t_widgetRawPtr :=
  alloc match args with
        | CheckboxArgs dimension text checked grayedOut =>
            WCheckbox (Checkbox_ctor theme dimension text checked grayedOut)
        | ButtonArgs dimension text clickedSlot buttonSize =>
            WButton (Button_ctor theme dimension text clickedSlot buttonSize)
        end.

(** [add<WidgetType>(args...)]: returns [m_widgets.back().get()]. *)
Definition add (args : WidgetArgs t_slot) (ui : UserInterface)
  : M (t_widgetRawPtr * UserInterface) :=
  p <- make_unique (m_theme ui) args ;;
  let ui' := {| m_widgets := m_widgets ui ++ [p];
                m_currentMouseOver := m_currentMouseOver ui;
                m_theme := m_theme ui; m_renderer := m_renderer ui |} in
  ret (List.last (m_widgets ui') None, ui').

Definition processEvent (event : SDL_Event) (ui : UserInterface) : M unit :=
  ret tt.

(** The range-for of [render]. *)
Fixpoint render_for (ws : list t_widgetRawPtr) (renderer : RenderUI) : M unit :=
  match ws with
  | [] => ret tt
  | widget :: rest => accept widget renderer ;; render_for rest renderer
  end.

Definition render (ui : UserInterface) : M unit :=
  render_for (m_widgets ui) (m_renderer ui).

(** [main]; [button1_clicked] is the lambda given to the Button. *)
Definition main (button1_clicked : t_slot) : M Z :=
  let rendering : RenderUI := tt in
  let theming : AppTheme := tt in
  let ui := UserInterface_ctor rendering theming in
  r <- add (CheckboxArgs (mkRect 0x43960000%Z 0x43D20000%Z 0x42200000%Z 0x42200000%Z)
              "Use VSync" true false) ui ;;
  r <- add (CheckboxArgs (mkRect 0x43960000%Z 0x43EB0000%Z 0x42200000%Z 0x42200000%Z)
              "Emit sound effects" false false) (snd r) ;;
  r <- add (ButtonArgs (mkRect 0x44098000%Z 0x44340000%Z 0x43160000%Z 0x42480000%Z)
              "Button1" button1_clicked SMALL) (snd r) ;;
  processEvent tt (snd r) ;;
  render (snd r) ;;
  ret 0%Z.

(** ** Specification vocabulary *)

(** The line [accept] prints for a widget. *)
Definition render_line (obj : Widget t_slot) : string :=
  match obj with
  | WButton _ => "- Rendering a Button"
  | WCheckbox _ => "- Rendering a Checkbox"
  end.

(** The widget [add] constructs from its arguments. *)
Definition constructed (theme : AppTheme) (args : WidgetArgs t_slot)
  : Widget t_slot :=
  match args with
  | CheckboxArgs dimension text checked grayedOut =>
      WCheckbox (Checkbox_ctor theme dimension text checked grayedOut)
  | ButtonArgs dimension text clickedSlot buttonSize =>
      WButton (Button_ctor theme dimension text clickedSlot buttonSize)
  end.

(** A host adds widgets one after the other. *)
Fixpoint add_all (argss : list (WidgetArgs t_slot)) (ui : UserInterface)
  : M UserInterface :=
  match argss with
  | [] => ret ui
  | args :: rest => r <- add args ui ;; add_all rest (snd r)
  end.

(** [n] clicks on a checkbox. *)
Fixpoint click_times (n : nat) (this : t_widgetRawPtr) : M unit :=
  match n with
  | O => ret tt
  | S k => Checkbox_onClick this tt ;; click_times k this
  end.

(** Mouse events on one widget: [true] is the mouse coming over it,
    [false] the mouse leaving it. *)
Fixpoint mouse_events (evs : list bool) (this : t_widgetRawPtr) : M unit :=
  match evs with
  | [] => ret tt
  | ev :: rest =>
      (if ev then onMouseOver this else onMouseLeave this) ;;
      mouse_events rest this
  end.

(** The base-class members of a widget. *)
Definition base_of (obj : Widget t_slot) : IWidget :=
  match obj with
  | WButton b => Button_base b
  | WCheckbox c => Checkbox_base c
  end.

End Slots.

End Gui.

(** The widgets [Gui.main] adds, and the UserInterface that owns them. *)
Definition gui_world : Gui.World unit :=
  {| Gui.widgets :=
       [Gui.WCheckbox
          (Gui.Checkbox_ctor tt
             (Gui.mkRect 0x43960000%Z 0x43D20000%Z 0x42200000%Z 0x42200000%Z)
             "Use VSync" true false);
        Gui.WCheckbox
          (Gui.Checkbox_ctor tt
             (Gui.mkRect 0x43960000%Z 0x43EB0000%Z 0x42200000%Z 0x42200000%Z)
             "Emit sound effects" false false);
        Gui.WButton
          (Gui.Button_ctor tt
             (Gui.mkRect 0x44098000%Z 0x44340000%Z 0x43160000%Z 0x42480000%Z)
             "Button1" tt Gui.SMALL)];
     Gui.cout := [] |}.

Definition gui_ui : Gui.UserInterface :=
  {| Gui.m_widgets := [Some 0; Some 1; Some 2];
     Gui.m_currentMouseOver := None;
     Gui.m_theme := tt; Gui.m_renderer := tt |}.

(** * Properties *)

(** ** The monad *)

Lemma bind_Ok {A B} (c : M A) (k : A -> M B) w b w' :
  bind c k w = Ok (b, w') <->
  exists a w1, c w = Ok (a, w1) /\ k a w1 = Ok (b, w').
Proof.
  unfold bind. split.
  - destruct (c w) as [[a w1]| |]; [eauto | discriminate | discriminate].
  - intros (a & w1 & -> & Hk). exact Hk.
Qed.

Lemma writes_run {A} (c : M A) w r out :
  writes c w r out -> c w = Ok (r, {| mem := mem w; cout := cout w ++ out |}).
Proof. intros H. apply H. reflexivity. Qed.

Lemma deref_Ok p w obj w' :
  deref p w = Ok (obj, w') <-> w' = w /\ exists a, p = Some a /\ mem w !! a = Some obj.
Proof.
  unfold deref. destruct p as [a|].
  - destruct (mem w !! a) as [o|] eqn:E; split.
    + intros [= -> ->]. eauto.
    + intros (-> & b & [= <-] & Hb). rewrite E in Hb. by injection Hb as ->.
    + discriminate.
    + intros (_ & b & [= <-] & Hb). congruence.
  - split; [discriminate | intros (_ & b & Hb & _); discriminate].
Qed.

Lemma deref_same_mem p w v obj :
  mem v = mem w -> deref p w = Ok (obj, w) -> deref p v = Ok (obj, v).
Proof.
  intros Hv H. apply deref_Ok in H as (_ & a & -> & Ha).
  unfold deref. by rewrite Hv, Ha.
Qed.

(** ** The loops of the control nodes preserve the contract of [update] *)

Section Loops.
Variable f : t_nodeRawPtr -> float -> M e_status.
Hypothesis f_stateless : stateless f.

Lemma stateless_run p dt w r w' :
  f p dt w = Ok (r, w') ->
  r <> UNKNOWN /\ exists out, out <> [] /\ writes (f p dt) w r out /\
    w' = {| mem := mem w; cout := cout w ++ out |}.
Proof.
  intros H. destruct (f_stateless _ _ _ _ _ H) as (Hr & out & Hne & Hw).
  split; [exact Hr |]. exists out. repeat split; try assumption.
  apply writes_run in Hw. congruence.
Qed.

Lemma Fallback_for_writes cs dt : forall w r w',
  Fallback_for f cs dt w = Ok (r, w') ->
  r <> UNKNOWN /\ exists out, writes (Fallback_for f cs dt) w r out.
Proof.
  induction cs as [|c cs IH]; simpl; intros w r w' H.
  - injection H as <- <-. split; [done |]. exists []. intros v _.
    unfold ret. destruct v; simpl. by rewrite app_nil_r.
  - apply bind_Ok in H as (st & w1 & Hc & H).
    apply stateless_run in Hc as (Hst & out & _ & Hw & ->).
    destruct (decide (st = SUCCESS)) as [->|Hne].
    + injection H as <- <-. split; [done |]. exists out. intros v Hv.
      unfold bind. rewrite (Hw v Hv). reflexivity.
    + apply IH in H as (Hr & out2 & Hw2). split; [exact Hr |].
      exists (out ++ out2). intros v Hv. unfold bind. rewrite (Hw v Hv).
      rewrite decide_False by exact Hne.
      rewrite (Hw2 {| mem := mem v; cout := cout v ++ out |}) by (simpl; congruence).
      simpl. by rewrite app_assoc.
Qed.

Lemma Sequence_for_writes cs dt : forall w r w',
  Sequence_for f cs dt w = Ok (r, w') ->
  r <> UNKNOWN /\ exists out, writes (Sequence_for f cs dt) w r out.
Proof.
  induction cs as [|c cs IH]; simpl; intros w r w' H.
  - injection H as <- <-. split; [done |]. exists []. intros v _.
    unfold ret. destruct v; simpl. by rewrite app_nil_r.
  - apply bind_Ok in H as (st & w1 & Hc & H).
    apply stateless_run in Hc as (Hst & out & _ & Hw & ->).
    destruct (decide (st = FAILURE)) as [->|Hne].
    + injection H as <- <-. split; [done |]. exists out. intros v Hv.
      unfold bind. rewrite (Hw v Hv). reflexivity.
    + apply IH in H as (Hr & out2 & Hw2). split; [exact Hr |].
      exists (out ++ out2). intros v Hv. unfold bind. rewrite (Hw v Hv).
      rewrite decide_False by exact Hne.
      rewrite (Hw2 {| mem := mem v; cout := cout v ++ out |}) by (simpl; congruence).
      simpl. by rewrite app_assoc.
Qed.

(** A control node prints its banner, reads its child list and loops. *)
Lemma composite_writes (banner : string)
    (loop : list t_nodeRawPtr -> float -> M e_status) this dt w r w' :
  (forall cs w0 r0 w0', loop cs dt w0 = Ok (r0, w0') ->
     r0 <> UNKNOWN /\ exists out, writes (loop cs dt) w0 r0 out) ->
  (cout_endl banner ;; obj <- deref this ;; loop (m_children obj) dt) w
    = Ok (r, w') ->
  r <> UNKNOWN /\ exists out, out <> [] /\
    writes (cout_endl banner ;; obj <- deref this ;; loop (m_children obj) dt)
      w r out.
Proof.
  intros Hloop H.
  apply bind_Ok in H as ([] & w1 & Hb & H).
  injection Hb as <-.
  apply bind_Ok in H as (obj & w2 & Hd & H).
  pose proof Hd as Hd'. apply deref_Ok in Hd' as (-> & _).
  apply Hloop in H as (Hr & out & Hw). split; [exact Hr |].
  exists (banner :: out). split; [done |]. intros v Hv.
  unfold bind at 1. simpl. unfold bind.
  erewrite deref_same_mem; [| | exact Hd]; [| simpl; congruence].
  rewrite Hw by (simpl; congruence). simpl.
  by rewrite <- app_assoc.
Qed.
End Loops.

Lemma leaf_writes (line : string) (st : e_status) w r w' :
  st <> UNKNOWN ->
  (cout_endl line ;; ret st) w = Ok (r, w') ->
  r <> UNKNOWN /\ exists out, out <> [] /\ writes (cout_endl line ;; ret st) w r out.
Proof.
  intros Hst [= <- <-]. split; [exact Hst |]. exists [line]. split; [done |].
  intros v _. reflexivity.
Qed.

(** Every override of [update] only appends to [cout]; what it returns and
    appends is fixed by the node memory. *)
Lemma update_stateless fuel : stateless (update fuel).
Proof.
  induction fuel as [|n IH]; intros p dt w r w' H; [discriminate |].
  simpl in H. apply bind_Ok in H as (obj & w1 & Hd & H).
  pose proof Hd as Hd'. apply deref_Ok in Hd' as (-> & _).
  assert (Hgo : forall (c : M e_status),
    (match dyn_class obj with
     | Fallback => Fallback_update (update n) p dt
     | Sequence => Sequence_update (update n) p dt
     | Esto => Esto_update p dt
     | Aquello => Aquello_update p dt
     | Uno => Uno_update p dt
     | Dos => Dos_update p dt
     | Tres => Tres_update p dt
     end) = c ->
    (c w = Ok (r, w') -> r <> UNKNOWN /\ exists out, out <> [] /\ writes c w r out) ->
    r <> UNKNOWN /\ exists out, out <> [] /\ writes (update (S n) p dt) w r out).
  { intros c Hc Hprop. rewrite Hc in H. destruct (Hprop H) as (Hr & out & Hne & Hw).
    split; [exact Hr |]. exists out. split; [exact Hne |]. intros v Hv.
    simpl. unfold bind at 1. erewrite deref_same_mem; [| exact Hv | exact Hd].
    rewrite Hc. apply Hw, Hv. }
  destruct (dyn_class obj) eqn:Hcls; eapply Hgo; try reflexivity.
  - apply composite_writes. intros. eapply Fallback_for_writes; eauto.
  - apply composite_writes. intros. eapply Sequence_for_writes; eauto.
  - apply leaf_writes; done.
  - apply leaf_writes; done.
  - apply leaf_writes; done.
  - apply leaf_writes; done.
  - apply leaf_writes; done.
Qed.

(** ** More fuel never changes a result *)

Section Fuel.
Variables f g : t_nodeRawPtr -> float -> M e_status.
Hypothesis f_le_g : forall p dt w x, f p dt w = Ok x -> g p dt w = Ok x.

Lemma Fallback_for_mono cs dt : forall w x,
  Fallback_for f cs dt w = Ok x -> Fallback_for g cs dt w = Ok x.
Proof.
  induction cs as [|c cs IH]; simpl; intros w [r w'] H; [exact H |].
  apply bind_Ok in H as (st & w1 & Hc & H). apply bind_Ok.
  exists st, w1. split; [by apply f_le_g |].
  destruct (decide (st = SUCCESS)); [exact H | by apply IH].
Qed.

Lemma Sequence_for_mono cs dt : forall w x,
  Sequence_for f cs dt w = Ok x -> Sequence_for g cs dt w = Ok x.
Proof.
  induction cs as [|c cs IH]; simpl; intros w [r w'] H; [exact H |].
  apply bind_Ok in H as (st & w1 & Hc & H). apply bind_Ok.
  exists st, w1. split; [by apply f_le_g |].
  destruct (decide (st = FAILURE)); [exact H | by apply IH].
Qed.
End Fuel.

Lemma update_fuel_S fuel : forall p dt w x,
  update fuel p dt w = Ok x -> update (S fuel) p dt w = Ok x.
Proof.
  induction fuel as [|n IH]; intros p dt w [r w'] H; [discriminate |].
  cbn [update] in H. apply bind_Ok in H as (obj & w1 & Hd & H).
  change (update (S (S n)) p dt w) with
    (bind (deref p) (fun obj =>
       match dyn_class obj with
       | Fallback => Fallback_update (update (S n)) p dt
       | Sequence => Sequence_update (update (S n)) p dt
       | Esto => Esto_update p dt
       | Aquello => Aquello_update p dt
       | Uno => Uno_update p dt
       | Dos => Dos_update p dt
       | Tres => Tres_update p dt
       end) w).
  apply bind_Ok. exists obj, w1. split; [exact Hd |].
  destruct (dyn_class obj); try exact H.
  - unfold Fallback_update in *.
    apply bind_Ok in H as (u & w2 & Hb & H). apply bind_Ok in H as (o & w3 & Ho & H).
    apply bind_Ok. exists u, w2. split; [exact Hb |].
    apply bind_Ok. exists o, w3. split; [exact Ho |].
    by apply (Fallback_for_mono (update n)).
  - unfold Sequence_update in *.
    apply bind_Ok in H as (u & w2 & Hb & H). apply bind_Ok in H as (o & w3 & Ho & H).
    apply bind_Ok. exists u, w2. split; [exact Hb |].
    apply bind_Ok. exists o, w3. split; [exact Ho |].
    by apply (Sequence_for_mono (update n)).
Qed.

Lemma update_fuel_le fuel fuel' p dt w x :
  fuel <= fuel' -> update fuel p dt w = Ok x -> update fuel' p dt w = Ok x.
Proof.
  induction 1 as [|k _ IH]; intros H; [exact H |].
  by apply update_fuel_S, IH.
Qed.

(** ** What the two loops do *)

Section LoopSpec.
Variable f : t_nodeRawPtr -> float -> M e_status.
Variable dt : float.
(** The world in which the control node was entered. *)
Variable v0 : World.
Hypothesis f_stateless : stateless f.

Lemma gives_at w c st w' :
  mem w = mem v0 -> f c dt w = Ok (st, w') -> gives f dt v0 c st /\ mem w' = mem v0.
Proof.
  intros Hm H.
  apply (stateless_run f f_stateless) in H as (_ & out & _ & Hw & ->).
  split; [| exact Hm]. eexists. apply Hw. congruence.
Qed.

Lemma gives_functional c st1 st2 :
  gives f dt v0 c st1 -> gives f dt v0 c st2 -> st1 = st2.
Proof. intros [v1 H1] [v2 H2]. congruence. Qed.

Lemma Sequence_for_spec cs : forall w,
  mem w = mem v0 -> Forall (returns_on f dt v0) cs ->
  exists r w' k sts,
    Sequence_for f cs dt w = Ok (r, w') /\
    k <= length cs /\
    invoked_in_order f dt (take k cs) w sts w' /\
    (r = SUCCESS /\ k = length cs /\ Forall (eq SUCCESS) sts \/
     r = FAILURE /\ exists sts0,
       sts = sts0 ++ [FAILURE] /\ Forall (eq SUCCESS) sts0) /\
    (r = SUCCESS <-> Forall (fun c => gives f dt v0 c SUCCESS) cs).
Proof.
  induction cs as [|c cs IH]; intros w Hm Hall.
  - exists SUCCESS, w, 0, []. split; [reflexivity |]. split; [simpl; lia |].
    split; [constructor |]. split; [left; by repeat split |].
    split; [constructor | reflexivity].
  - apply Forall_cons in Hall as [Hc Hall].
    destruct (Hc w Hm) as (st & w1 & Hf).
    pose proof (gives_at _ _ _ _ Hm Hf) as [Hg Hm1].
    pose proof (stateless_run f f_stateless _ _ _ _ _ Hf) as (Hst & _).
    destruct (decide (st = FAILURE)) as [->|Hne].
    + exists FAILURE, w1, 1, [FAILURE]. split.
      { simpl. unfold bind. rewrite Hf. by rewrite decide_True. }
      split; [simpl; lia |]. split.
      { simpl. rewrite ?take_0. econstructor; [exact Hf | constructor]. }
      split.
      { right. split; [done |]. exists []. split; [done | constructor]. }
      split; [done |]. intros Hs. apply Forall_cons in Hs as [Hs _].
      pose proof (gives_functional _ _ _ Hg Hs). done.
    + assert (st = SUCCESS) as -> by (destruct st; done).
      destruct (IH w1 Hm1 Hall) as (r & w' & k & sts & Hrun & Hk & Hinv & Hcase & Hiff).
      exists r, w', (S k), (SUCCESS :: sts). split.
      { simpl. unfold bind. rewrite Hf. by rewrite decide_False. }
      split; [simpl; lia |]. split.
      { simpl. econstructor; [exact Hf | exact Hinv]. }
      split.
      { destruct Hcase as [(-> & -> & Hs) | (-> & sts0 & -> & Hs)].
        - left. repeat split; try done. by constructor.
        - right. split; [done |]. exists (SUCCESS :: sts0).
          split; [done | by constructor]. }
      rewrite Hiff. split.
      * intros Hs. by constructor.
      * intros Hs. by apply Forall_cons in Hs as [_ Hs].
Qed.

Lemma Fallback_for_spec cs : forall w,
  mem w = mem v0 -> Forall (returns_on f dt v0) cs ->
  exists r w' k sts,
    Fallback_for f cs dt w = Ok (r, w') /\
    k <= length cs /\
    invoked_in_order f dt (take k cs) w sts w' /\
    (r = FAILURE /\ k = length cs /\ Forall (eq FAILURE) sts \/
     r = SUCCESS /\ exists sts0,
       sts = sts0 ++ [SUCCESS] /\ Forall (eq FAILURE) sts0) /\
    (r = FAILURE <-> Forall (fun c => gives f dt v0 c FAILURE) cs).
Proof.
  induction cs as [|c cs IH]; intros w Hm Hall.
  - exists FAILURE, w, 0, []. split; [reflexivity |]. split; [simpl; lia |].
    split; [constructor |]. split; [left; by repeat split |].
    split; [constructor | reflexivity].
  - apply Forall_cons in Hall as [Hc Hall].
    destruct (Hc w Hm) as (st & w1 & Hf).
    pose proof (gives_at _ _ _ _ Hm Hf) as [Hg Hm1].
    pose proof (stateless_run f f_stateless _ _ _ _ _ Hf) as (Hst & _).
    destruct (decide (st = SUCCESS)) as [->|Hne].
    + exists SUCCESS, w1, 1, [SUCCESS]. split.
      { simpl. unfold bind. rewrite Hf. by rewrite decide_True. }
      split; [simpl; lia |]. split.
      { simpl. rewrite ?take_0. econstructor; [exact Hf | constructor]. }
      split.
      { right. split; [done |]. exists []. split; [done | constructor]. }
      split; [done |]. intros Hs. apply Forall_cons in Hs as [Hs _].
      pose proof (gives_functional _ _ _ Hg Hs). done.
    + assert (st = FAILURE) as -> by (destruct st; done).
      destruct (IH w1 Hm1 Hall) as (r & w' & k & sts & Hrun & Hk & Hinv & Hcase & Hiff).
      exists r, w', (S k), (FAILURE :: sts). split.
      { simpl. unfold bind. rewrite Hf. by rewrite decide_False. }
      split; [simpl; lia |]. split.
      { simpl. econstructor; [exact Hf | exact Hinv]. }
      split.
      { destruct Hcase as [(-> & -> & Hs) | (-> & sts0 & -> & Hs)].
        - left. repeat split; try done. by constructor.
        - right. split; [done |]. exists (FAILURE :: sts0).
          split; [done | by constructor]. }
      rewrite Hiff. split.
      * intros Hs. by constructor.
      * intros Hs. by apply Forall_cons in Hs as [_ Hs].
Qed.
End LoopSpec.

(** ** Unfolding a call on a live object *)

Lemma update_live fuel a dt w obj :
  mem w !! a = Some obj ->
  update (S fuel) (Some a) dt w =
    match dyn_class obj with
    | Fallback => Fallback_update (update fuel) (Some a) dt
    | Sequence => Sequence_update (update fuel) (Some a) dt
    | Esto => Esto_update (Some a) dt
    | Aquello => Aquello_update (Some a) dt
    | Uno => Uno_update (Some a) dt
    | Dos => Dos_update (Some a) dt
    | Tres => Tres_update (Some a) dt
    end w.
Proof. intros H. simpl. unfold bind, deref. by rewrite H. Qed.

Lemma Sequence_update_live f a dt w obj :
  mem w !! a = Some obj ->
  Sequence_update f (Some a) dt w =
    Sequence_for f (m_children obj) dt
      {| mem := mem w; cout := cout w ++ ["Running SEQUENCE"] |}.
Proof. intros H. unfold Sequence_update, bind, deref. simpl. by rewrite H. Qed.

Lemma Fallback_update_live f a dt w obj :
  mem w !! a = Some obj ->
  Fallback_update f (Some a) dt w =
    Fallback_for f (m_children obj) dt
      {| mem := mem w; cout := cout w ++ ["Running FALLBACK"] |}.
Proof. intros H. unfold Fallback_update, bind, deref. simpl. by rewrite H. Qed.

(** ** Evaluation returns on every finite tree *)

Lemma forallb_Forall {A} (g : A -> bool) l :
  forallb g l = true -> Forall (fun x => g x = true) l.
Proof.
  induction l as [|x l IH]; simpl; intros H; constructor.
  - by apply andb_prop in H as [H _].
  - apply IH. by apply andb_prop in H as [_ H].
Qed.

Lemma tree_ok_live d m p :
  tree_ok d m p = true ->
  exists n a obj, d = S n /\ p = Some a /\ m !! a = Some obj /\
    Forall (fun c => tree_ok n m c = true) (m_children obj).
Proof.
  destruct d as [|n]; simpl; [discriminate |].
  destruct p as [a|]; [| discriminate].
  destruct (m !! a) as [obj|] eqn:E; [| discriminate].
  intros H. exists n, a, obj. repeat split; try done. by apply forallb_Forall.
Qed.

Lemma update_total fuel : forall p dt w,
  tree_ok fuel (mem w) p = true ->
  exists r w', update fuel p dt w = Ok (r, w').
Proof.
  induction fuel as [|n IH]; intros p dt w H; [discriminate |].
  apply tree_ok_live in H as (n' & a & obj & [= <-] & -> & Ha & Hcs).
  assert (Hret : forall u, mem u = mem w ->
            Forall (returns_on (update n) dt u) (m_children obj)).
  { intros u Hu. eapply Forall_impl; [exact Hcs |]. intros c Hc v Hv.
    apply IH. by rewrite Hv, Hu. }
  rewrite (update_live _ _ _ _ _ Ha). destruct (dyn_class obj).
  - rewrite (Fallback_update_live _ _ _ _ _ Ha).
    edestruct (Fallback_for_spec (update n) dt w (update_stateless n)
                 (m_children obj)) as (r & w' & _ & _ & Hrun & _);
      [| apply Hret; reflexivity | eauto]; reflexivity.
  - rewrite (Sequence_update_live _ _ _ _ _ Ha).
    edestruct (Sequence_for_spec (update n) dt w (update_stateless n)
                 (m_children obj)) as (r & w' & _ & _ & Hrun & _);
      [| apply Hret; reflexivity | eauto]; reflexivity.
  - by eexists _, _.
  - by eexists _, _.
  - by eexists _, _.
  - by eexists _, _.
  - by eexists _, _.
Qed.

Lemma emitted_app w w' out : cout w' = cout w ++ out -> emitted w w' = out.
Proof. unfold emitted. intros ->. by rewrite drop_app_length. Qed.

(** Every invocation of [update] that returns has written to [cout] and
    has left the node memory as it was. *)
Lemma update_is_observable fuel p dt w r w' :
  update fuel p dt w = Ok (r, w') ->
  mem w' = mem w /\ exists out, out <> [] /\ cout w' = cout w ++ out.
Proof.
  intros H.
  apply (stateless_run _ (update_stateless fuel)) in H as (_ & out & Hne & _ & ->).
  split; [reflexivity |]. by exists out.
Qed.

(** ** Sequence *)

(** C1. A Sequence node [s] of a finite tree, updated in world [w] with
    fuel beyond the depth of the tree, returns a status [r].  It first
    prints its banner and then invokes the first [k] of its children, in
    list order, each in the world its predecessor left; the world [w'] in
    which [s] returns is the world the [k]-th child left, so nothing is
    invoked after it (every invocation writes to [cout], see
    [update_is_observable]).  Either all children were invoked and each
    returned SUCCESS, and [r] is SUCCESS; or the [k]-th child is the first
    to return FAILURE and [r] is FAILURE.  [r] is SUCCESS exactly when
    every child evaluates to SUCCESS. *)
Theorem Sequence_update_spec (d : nat) (dt : float) (w : World) (s : nat)
    (obj : IBehaviorTreeNode) :
  mem w !! s = Some obj ->
  dyn_class obj = Sequence ->
  tree_ok (S d) (mem w) (Some s) = true ->
  exists r w' k sts,
    (forall j, update (S d + j) (Some s) dt w = Ok (r, w')) /\
    k <= length (m_children obj) /\
    invoked_in_order (update d) dt (take k (m_children obj))
      {| mem := mem w; cout := cout w ++ ["Running SEQUENCE"] |} sts w' /\
    (r = SUCCESS /\ k = length (m_children obj) /\ Forall (eq SUCCESS) sts \/
     r = FAILURE /\ exists sts0,
       sts = sts0 ++ [FAILURE] /\ Forall (eq SUCCESS) sts0) /\
    (r = SUCCESS <->
     Forall (fun c => evaluates_to d w dt c SUCCESS) (m_children obj)).
Proof.
  intros Ha Hcls Hok.
  apply tree_ok_live in Hok as (n & a & o & [= <-] & [= <-] & Ha' & Hcs).
  rewrite Ha in Ha'. injection Ha' as <-.
  destruct (Sequence_for_spec (update d) dt w (update_stateless d)
              (m_children obj)
              {| mem := mem w; cout := cout w ++ ["Running SEQUENCE"] |})
    as (r & w' & k & sts & Hrun & Hk & Hinv & Hcase & Hiff).
  { reflexivity. }
  { eapply Forall_impl; [exact Hcs |]. intros c Hc v Hv.
    apply update_total. by rewrite Hv. }
  exists r, w', k, sts. repeat split; try assumption; try apply Hiff.
  intros j. apply (update_fuel_le (S d)); [lia |].
  rewrite (update_live _ _ _ _ _ Ha), Hcls.
  by rewrite (Sequence_update_live _ _ _ _ _ Ha).
Qed.

Lemma Sequence_update_spec_witness :
  tree_ok 2 (mem main_world) (Some 0) = true /\
  exists r w' k sts,
    (forall j, update (2 + j) (Some 0) one_sixtieth main_world = Ok (r, w')) /\
    k <= 3 /\
    invoked_in_order (update 1) one_sixtieth (take k [Some 4; Some 5; Some 6])
      {| mem := mem main_world;
         cout := cout main_world ++ ["Running SEQUENCE"] |} sts w' /\
    (r = SUCCESS /\ k = 3 /\ Forall (eq SUCCESS) sts \/
     r = FAILURE /\ exists sts0,
       sts = sts0 ++ [FAILURE] /\ Forall (eq SUCCESS) sts0) /\
    (r = SUCCESS <->
     Forall (fun c => evaluates_to 1 main_world one_sixtieth c SUCCESS)
       [Some 4; Some 5; Some 6]).
Proof.
  split; [reflexivity |].
  apply (Sequence_update_spec 1 one_sixtieth main_world 0
           (mkNode Sequence SEQUENCE None [Some 4; Some 5; Some 6]));
    reflexivity.
Defined.

(** Sequence[SUCCESS, FAILURE, SUCCESS] returns FAILURE and its third
    child prints nothing. *)
Example scenario_B :
  update 2 (Some 0) one_sixtieth scenario_B_world =
    Ok (FAILURE,
        {| mem := mem scenario_B_world;
           cout := ["Running SEQUENCE"; "Uno -> SUCCESS"; "Esto -> FAILURE"] |}).
Proof. reflexivity. Qed.

(** ** Fallback *)

(** C2. A Fallback node [s] of a finite tree, updated in world [w] with
    fuel beyond the depth of the tree, returns a status [r].  It first
    prints its banner and then invokes the first [k] of its children, in
    list order, each in the world its predecessor left; the world [w'] in
    which [s] returns is the world the [k]-th child left, so nothing is
    invoked after it.  Either the [k]-th child is the first to return
    SUCCESS and [r] is SUCCESS; or all children were invoked and each
    returned FAILURE, and [r] is FAILURE.  [r] is FAILURE exactly when
    every child evaluates to FAILURE. *)
Theorem Fallback_update_spec (d : nat) (dt : float) (w : World) (s : nat)
    (obj : IBehaviorTreeNode) :
  mem w !! s = Some obj ->
  dyn_class obj = Fallback ->
  tree_ok (S d) (mem w) (Some s) = true ->
  exists r w' k sts,
    (forall j, update (S d + j) (Some s) dt w = Ok (r, w')) /\
    k <= length (m_children obj) /\
    invoked_in_order (update d) dt (take k (m_children obj))
      {| mem := mem w; cout := cout w ++ ["Running FALLBACK"] |} sts w' /\
    (r = FAILURE /\ k = length (m_children obj) /\ Forall (eq FAILURE) sts \/
     r = SUCCESS /\ exists sts0,
       sts = sts0 ++ [SUCCESS] /\ Forall (eq FAILURE) sts0) /\
    (r = FAILURE <->
     Forall (fun c => evaluates_to d w dt c FAILURE) (m_children obj)).
Proof.
  intros Ha Hcls Hok.
  apply tree_ok_live in Hok as (n & a & o & [= <-] & [= <-] & Ha' & Hcs).
  rewrite Ha in Ha'. injection Ha' as <-.
  destruct (Fallback_for_spec (update d) dt w (update_stateless d)
              (m_children obj)
              {| mem := mem w; cout := cout w ++ ["Running FALLBACK"] |})
    as (r & w' & k & sts & Hrun & Hk & Hinv & Hcase & Hiff).
  { reflexivity. }
  { eapply Forall_impl; [exact Hcs |]. intros c Hc v Hv.
    apply update_total. by rewrite Hv. }
  exists r, w', k, sts. repeat split; try assumption; try apply Hiff.
  intros j. apply (update_fuel_le (S d)); [lia |].
  rewrite (update_live _ _ _ _ _ Ha), Hcls.
  by rewrite (Fallback_update_live _ _ _ _ _ Ha).
Qed.

Lemma Fallback_update_spec_witness :
  tree_ok 3 (mem main_world) (Some 1) = true /\
  exists r w' k sts,
    (forall j, update (3 + j) (Some 1) one_sixtieth main_world = Ok (r, w')) /\
    k <= 3 /\
    invoked_in_order (update 2) one_sixtieth (take k [Some 2; Some 3; Some 0])
      {| mem := mem main_world;
         cout := cout main_world ++ ["Running FALLBACK"] |} sts w' /\
    (r = FAILURE /\ k = 3 /\ Forall (eq FAILURE) sts \/
     r = SUCCESS /\ exists sts0,
       sts = sts0 ++ [SUCCESS] /\ Forall (eq FAILURE) sts0) /\
    (r = FAILURE <->
     Forall (fun c => evaluates_to 2 main_world one_sixtieth c FAILURE)
       [Some 2; Some 3; Some 0]).
Proof.
  split; [reflexivity |].
  apply (Fallback_update_spec 2 one_sixtieth main_world 1
           (mkNode Fallback FALLBACK None [Some 2; Some 3; Some 0]));
    reflexivity.
Defined.

(** ** Control nodes without children *)

(** C4. A Sequence without children returns SUCCESS and a Fallback
    without children returns FAILURE; each has only printed its banner. *)
Theorem childless_control_node (fuel : nat) (dt : float) (w : World) (a : nat)
    (obj : IBehaviorTreeNode) :
  mem w !! a = Some obj ->
  m_children obj = [] ->
  (dyn_class obj = Sequence ->
   update (S fuel) (Some a) dt w =
     Ok (SUCCESS, {| mem := mem w; cout := cout w ++ ["Running SEQUENCE"] |})) /\
  (dyn_class obj = Fallback ->
   update (S fuel) (Some a) dt w =
     Ok (FAILURE, {| mem := mem w; cout := cout w ++ ["Running FALLBACK"] |})).
Proof.
  intros Ha Hnil. split; intros Hcls;
    rewrite (update_live _ _ _ _ _ Ha), Hcls.
  - by rewrite (Sequence_update_live _ _ _ _ _ Ha), Hnil.
  - by rewrite (Fallback_update_live _ _ _ _ _ Ha), Hnil.
Qed.

Lemma childless_control_node_witness :
  update 1 (Some 0) one_sixtieth childless_world =
    Ok (SUCCESS, {| mem := mem childless_world; cout := ["Running SEQUENCE"] |}) /\
  update 1 (Some 1) one_sixtieth childless_world =
    Ok (FAILURE, {| mem := mem childless_world; cout := ["Running FALLBACK"] |}).
Proof.
  split.
  - apply (childless_control_node 0 one_sixtieth childless_world 0 Sequence_ctor);
      reflexivity.
  - apply (childless_control_node 0 one_sixtieth childless_world 1 Fallback_ctor);
      reflexivity.
Defined.

(** ** The tree of [main] *)

(** C5. [main] builds a Fallback (address 1) over Esto, Aquello and a
    Sequence (address 0) over Uno, Dos and Tres, and makes it the root.
    One tick evaluates the root to SUCCESS.  The Fallback invokes Esto,
    then Aquello, which return FAILURE, and then the Sequence, which
    returns SUCCESS; the Sequence invokes Uno, Dos and Tres in this
    order, which return SUCCESS.  The lines printed are those of the
    comment above [main]. *)
Theorem main_scenario (indeterminate : t_nodeRawPtr) :
  let lines :=
    ["Running FALLBACK"; "Esto -> FAILURE"; "Aquello -> FAILURE";
     "Running SEQUENCE"; "Uno -> SUCCESS"; "Dos -> SUCCESS"; "Tres -> SUCCESS"] in
  let after k := {| mem := mem main_world; cout := take k lines |} in
  main_build indeterminate empty_world = Ok (main_tree, main_world) /\
  getRoot main_tree = Some 1 /\
  cout main_world = [] /\
  mem main_world =
    [mkNode Sequence SEQUENCE nullptr [Some 4; Some 5; Some 6];
     mkNode Fallback FALLBACK nullptr [Some 2; Some 3; Some 0];
     Esto_ctor; Aquello_ctor; Uno_ctor; Dos_ctor; Tres_ctor] /\
  (forall j, update (3 + j) (getRoot main_tree) one_sixtieth main_world
             = Ok (SUCCESS, after 7)) /\
  invoked_in_order (update 2) one_sixtieth [Some 2; Some 3; Some 0]
    (after 1) [FAILURE; FAILURE; SUCCESS] (after 7) /\
  invoked_in_order (update 1) one_sixtieth [Some 4; Some 5; Some 6]
    (after 4) [SUCCESS; SUCCESS; SUCCESS] (after 7) /\
  (forall j, main (3 + j) indeterminate empty_world = Ok (0%Z, after 7)).
Proof.
  intros lines after.
  repeat split; try reflexivity.
  - repeat (econstructor; [reflexivity |]). constructor.
  - repeat (econstructor; [reflexivity |]). constructor.
Qed.

(** ** Evaluation is a function of the tree *)

(** C6. No node class of this file has state of its own, so every leaf is
    stateless.  On a finite tree two successive ticks with the same [dt]
    both return, give the same status at the root and print the same
    lines; and every node, updated in any two worlds that hold the node
    memory of the tree, returns the same status and prints the same
    lines. *)
Theorem tick_deterministic (fuel : nat) (bt : BehaviorTree) (dt : float)
    (w : World) :
  tree_ok fuel (mem w) (m_root bt) = true ->
  exists r w1 w2,
    update fuel (m_root bt) dt w = Ok (r, w1) /\
    run fuel bt dt w = Ok (tt, w1) /\
    update fuel (m_root bt) dt w1 = Ok (r, w2) /\
    run fuel bt dt w1 = Ok (tt, w2) /\
    emitted w1 w2 = emitted w w1 /\
    mem w1 = mem w /\ mem w2 = mem w /\
    forall d p v v' st u,
      mem v = mem w -> mem v' = mem w ->
      update d p dt v = Ok (st, u) ->
      exists u', update d p dt v' = Ok (st, u') /\ emitted v' u' = emitted v u.
Proof.
  intros Hok. destruct (update_total _ _ dt _ Hok) as (r & w1 & H1).
  pose proof H1 as H1'.
  apply (stateless_run _ (update_stateless fuel)) in H1' as (_ & out & _ & Hw & ->).
  set (w1 := {| mem := mem w; cout := cout w ++ out |}) in *.
  pose proof (Hw w1 eq_refl) as H2.
  exists r, w1, {| mem := mem w1; cout := cout w1 ++ out |}.
  split; [exact H1 |]. split; [unfold run, bind; by rewrite H1 |].
  split; [exact H2 |]. split; [unfold run, bind; by rewrite H2 |].
  split; [by rewrite !(emitted_app _ _ out) |]. split; [reflexivity |].
  split; [reflexivity |].
  intros d p v v' st u Hv Hv' Hu.
  apply (stateless_run _ (update_stateless d)) in Hu as (_ & o & _ & Hwo & ->).
  eexists. split; [apply Hwo; congruence |]. by rewrite !(emitted_app _ _ o).
Qed.

Lemma tick_deterministic_witness :
  exists r w1 w2,
    update 3 (Some 1) one_sixtieth main_world = Ok (r, w1) /\
    update 3 (Some 1) one_sixtieth w1 = Ok (r, w2) /\
    emitted w1 w2 = emitted main_world w1.
Proof.
  destruct (tick_deterministic 3 main_tree one_sixtieth main_world eq_refl)
    as (r & w1 & w2 & H1 & _ & H2 & _ & He & _).
  exists r, w1, w2. repeat split; assumption.
Defined.

(** ** Evaluation does not touch the tree *)

(** C7. Updating a node of a finite tree returns and leaves the node
    memory as it was: every node keeps its class, node type, parent
    pointer and child list; so does a tick, which updates the root.
    Whenever an update returns, with whatever fuel, the node memory is
    unchanged. *)
Theorem update_preserves_tree (fuel : nat) (p : t_nodeRawPtr) (dt : float)
    (w : World) :
  tree_ok fuel (mem w) p = true ->
  (exists r w',
     update fuel p dt w = Ok (r, w') /\
     run fuel (setRoot p (BehaviorTree_default nullptr)) dt w = Ok (tt, w') /\
     mem w' = mem w /\
     forall a obj, mem w !! a = Some obj ->
       getNodeType (Some a) w' = Ok (m_type obj, w') /\
       getParent (Some a) w' = Ok (m_parent obj, w') /\
       getChildren (Some a) w' = Ok (m_children obj, w') /\
       (dyn_class <$> mem w' !! a) = Some (dyn_class obj)) /\
  forall n q v st v', update n q dt v = Ok (st, v') -> mem v' = mem v.
Proof.
  intros Hok. split.
  - destruct (update_total _ _ dt _ Hok) as (r & w' & H).
    pose proof (update_is_observable _ _ _ _ _ _ H) as [Hm _].
    exists r, w'. split; [exact H |].
    split; [unfold run, bind; simpl; by rewrite H |].
    split; [exact Hm |]. intros a obj Ha.
    unfold getNodeType, getParent, getChildren, bind, deref.
    by rewrite Hm, Ha.
  - intros n q v st v' H. by apply update_is_observable in H as [Hm _].
Qed.

Lemma update_preserves_tree_witness :
  exists r w',
    update 3 (Some 1) one_sixtieth main_world = Ok (r, w') /\
    mem w' = mem main_world.
Proof.
  destruct (update_preserves_tree 3 (Some 1) one_sixtieth main_world eq_refl)
    as [(r & w' & H & _ & Hm & _) _].
  by exists r, w'.
Defined.

(** ** The status UNKNOWN *)

(** C10. Updating a node of a finite tree of Sequence, Fallback, Esto,
    Aquello, Uno, Dos and Tres nodes returns SUCCESS or FAILURE; and no
    update that returns, with whatever fuel and in whatever world,
    returns UNKNOWN. *)
Theorem update_never_UNKNOWN (fuel : nat) (p : t_nodeRawPtr) (dt : float)
    (w : World) :
  tree_ok fuel (mem w) p = true ->
  (exists r w', update fuel p dt w = Ok (r, w') /\ (r = SUCCESS \/ r = FAILURE)) /\
  forall n q v st v', update n q dt v = Ok (st, v') -> st <> UNKNOWN.
Proof.
  intros Hok.
  assert (Hno : forall n q v st v', update n q dt v = Ok (st, v') -> st <> UNKNOWN).
  { intros n q v st v' H. by apply update_stateless in H as [H _]. }
  split; [| exact Hno].
  destruct (update_total _ _ dt _ Hok) as (r & w' & H).
  exists r, w'. split; [exact H |]. apply Hno in H. destruct r; auto; done.
Qed.

Lemma update_never_UNKNOWN_witness :
  exists r w',
    update 3 (Some 1) one_sixtieth main_world = Ok (r, w') /\
    (r = SUCCESS \/ r = FAILURE).
Proof.
  exact (proj1 (update_never_UNKNOWN 3 (Some 1) one_sixtieth main_world eq_refl)).
Defined.

(** ** What host operations do to the node memory *)

Lemma addChildren_Ok this c w u w' :
  addChildren this c w = Ok (u, w') <->
  exists a obj, this = Some a /\ mem w !! a = Some obj /\
    w' = {| mem := <[a := with_child obj c]> (mem w); cout := cout w |}.
Proof.
  unfold addChildren, bind, deref, store. destruct this as [a|].
  - destruct (mem w !! a) as [obj|] eqn:E; simpl.
    + rewrite E. split.
      * intros [= <-]. by exists a, obj.
      * intros (b & o & [= <-] & Hb & ->). rewrite E in Hb.
        injection Hb as <-. by destruct u.
    + split; [discriminate | intros (b & o & [= <-] & Hb & _); congruence].
  - split; [discriminate | intros (b & o & Hb & _); discriminate].
Qed.

Lemma getter_Ok {A} (g : IBehaviorTreeNode -> A) this w x w' :
  (node <- deref this ;; ret (g node)) w = Ok (x, w') -> w' = w.
Proof.
  intros H. apply bind_Ok in H as (obj & w1 & Hd & [= _ <-]).
  by apply deref_Ok in Hd as [-> _].
Qed.

Lemma exec_mem_step fuel o bt w bt' w' :
  exec fuel o bt w = Ok (bt', w') -> mem_step (mem w) (mem w').
Proof.
  destruct o; simpl; intros H.
  - injection H as _ <-. destruct cls; apply step_new.
  - injection H as _ <-. apply step_same.
  - apply bind_Ok in H as ([] & w1 & H & [= _ <-]).
    unfold run in H. apply bind_Ok in H as (st & w2 & H & [= <-]).
    apply update_is_observable in H as [-> _]. apply step_same.
  - injection H as _ <-. apply step_same.
  - apply bind_Ok in H as (st & w1 & H & [= _ <-]).
    apply update_is_observable in H as [-> _]. apply step_same.
  - apply bind_Ok in H as (x & w1 & H & [= _ <-]).
    apply getter_Ok in H as ->. apply step_same.
  - apply bind_Ok in H as (x & w1 & H & [= _ <-]).
    apply getter_Ok in H as ->. apply step_same.
  - apply bind_Ok in H as (x & w1 & H & [= _ <-]).
    apply getter_Ok in H as ->. apply step_same.
  - apply bind_Ok in H as (x & w1 & H & [= _ <-]).
    apply getter_Ok in H as ->. apply step_same.
  - apply bind_Ok in H as (x & w1 & H & [= _ <-]).
    apply addChildren_Ok in H as (a & obj & _ & Ha & ->). by apply step_push.
Qed.

Lemma mem_step_children_kept m m' : mem_step m m' -> children_kept m m'.
Proof.
  intros [| cls type | a obj c Ha] b old Hb.
  - by exists old.
  - exists old. split; [| done]. by apply lookup_app_l_Some.
  - destruct (decide (a = b)) as [->|Hne].
    + exists (with_child obj c). split.
      * apply list_lookup_insert_eq. by eapply lookup_lt_Some.
      * rewrite Ha in Hb. injection Hb as <-. simpl. by apply prefix_app_r.
    + exists old. split; [| done]. by rewrite list_lookup_insert_ne.
Qed.

Lemma exec_all_children_kept fuel ops : forall bt w bt' w',
  exec_all fuel ops bt w = Ok (bt', w') -> children_kept (mem w) (mem w').
Proof.
  induction ops as [|o ops IH]; simpl; intros bt w bt' w' H.
  - injection H as _ <-. intros b old Hb. by exists old.
  - apply bind_Ok in H as (bt1 & w1 & Ho & H).
    apply exec_mem_step, mem_step_children_kept in Ho. apply IH in H.
    intros b old Hb. destruct (Ho _ _ Hb) as (mid & Hmid & Hp1).
    destruct (H _ _ Hmid) as (new & Hnew & Hp2).
    exists new. split; [exact Hnew | by etrans].
Qed.

Lemma mem_step_parents_null m m' :
  mem_step m m' -> parents_null m -> parents_null m'.
Proof.
  unfold parents_null. intros [| cls type | a obj c Ha] Hm.
  - exact Hm.
  - apply Forall_app. split; [exact Hm |]. by repeat constructor.
  - apply Forall_insert; [exact Hm |]. simpl.
    by apply (Forall_lookup_1 _ _ _ _ Hm Ha).
Qed.

Lemma exec_all_parents_null fuel ops : forall bt w bt' w',
  exec_all fuel ops bt w = Ok (bt', w') ->
  parents_null (mem w) -> parents_null (mem w').
Proof.
  induction ops as [|o ops IH]; simpl; intros bt w bt' w' H Hw.
  - by injection H as _ <-.
  - apply bind_Ok in H as (bt1 & w1 & Ho & H).
    eapply IH; [exact H |].
    eapply mem_step_parents_null; [by eapply exec_mem_step | exact Hw].
Qed.

(** ** addChildren *)

(** C8. [addChildren] on a live node [a] returns; afterwards the child
    list of [a] is the old list with [c] appended, every other node and
    [cout] are as before.  Across any host program every node keeps its
    earlier child list as a prefix of its later one: children are never
    removed or reordered. *)
Theorem addChildren_appends (w : World) (a : nat) (obj : IBehaviorTreeNode)
    (c : t_nodeRawPtr) :
  mem w !! a = Some obj ->
  (exists w',
     addChildren (Some a) c w = Ok (tt, w') /\
     getChildren (Some a) w' = Ok (m_children obj ++ [c], w') /\
     mem w' !! a = Some (with_child obj c) /\
     (forall b, b <> a -> mem w' !! b = mem w !! b) /\
     length (mem w') = length (mem w) /\
     cout w' = cout w) /\
  forall fuel ops bt v bt' v' b old,
    exec_all fuel ops bt v = Ok (bt', v') ->
    mem v !! b = Some old ->
    exists new, mem v' !! b = Some new /\
      m_children old `prefix_of` m_children new.
Proof.
  intros Ha. split.
  - exists {| mem := <[a := with_child obj c]> (mem w); cout := cout w |}.
    assert (Hlook : <[a := with_child obj c]> (mem w) !! a
                    = Some (with_child obj c)).
    { apply list_lookup_insert_eq. by eapply lookup_lt_Some. }
    split; [apply addChildren_Ok; by exists a, obj |].
    split; [unfold getChildren, bind, deref; simpl; by rewrite Hlook |].
    split; [exact Hlook |].
    split; [intros b Hb; simpl; by rewrite list_lookup_insert_ne |].
    split; [simpl; apply length_insert | reflexivity].
  - intros fuel ops bt v bt' v' b old H Hb.
    exact (exec_all_children_kept _ _ _ _ _ _ H _ _ Hb).
Qed.

Lemma addChildren_appends_witness :
  exists w',
    addChildren (Some 1) (Some 4) main_world = Ok (tt, w') /\
    getChildren (Some 1) w' = Ok ([Some 2; Some 3; Some 0; Some 4], w').
Proof.
  destruct (addChildren_appends main_world 1
              (mkNode Fallback FALLBACK nullptr [Some 2; Some 3; Some 0])
              (Some 4) eq_refl) as [(w' & H & Hc & _) _].
  by exists w'.
Defined.

(** ** getParent *)

(** C9. The base-class constructor sets the parent pointer to nullptr,
    and after any host program run on a default-initialised tree and an
    empty node memory, [getParent] of every node returns nullptr: also
    of the nodes that were linked as children. *)
Theorem getParent_always_null (fuel : nat) (ops : list op)
    (indeterminate : t_nodeRawPtr) (bt : BehaviorTree) (w : World) (a : nat)
    (obj : IBehaviorTreeNode) :
  exec_all fuel ops (BehaviorTree_default indeterminate) empty_world
    = Ok (bt, w) ->
  mem w !! a = Some obj ->
  (forall cls type, m_parent (IBehaviorTreeNode_ctor cls type) = nullptr) /\
  getParent (Some a) w = Ok (nullptr, w).
Proof.
  intros H Ha. split; [reflexivity |].
  apply exec_all_parents_null in H; [| constructor].
  unfold getParent, bind, deref. rewrite Ha. unfold ret.
  by rewrite (Forall_lookup_1 _ _ _ _ H Ha).
Qed.

Lemma getParent_always_null_witness :
  exists bt w,
    exec_all 2 link_esto (BehaviorTree_default nullptr) empty_world = Ok (bt, w) /\
    getChildren (Some 1) w = Ok ([Some 2], w) /\
    getParent (Some 2) w = Ok (nullptr, w).
Proof.
  eexists _, _. split; [reflexivity |]. split; [reflexivity |].
  eapply (getParent_always_null 2 link_esto nullptr); reflexivity.
Defined.

(** ** run without a root *)

(** C3, as the spec states it, fails.  A tree whose root pointer was never
    assigned, and happens to hold the address the first node is created
    at, is ticked: [run] returns normally after evaluating that node. *)
Lemma run_before_setRoot_counterexample :
  ~ (forall fuel indeterminate ops dt bt w,
       forallb (fun o => negb (is_setRoot o)) ops = true ->
       exec_all fuel ops (BehaviorTree_default indeterminate) empty_world
         = Ok (bt, w) ->
       forall w', run fuel bt dt w <> Ok (tt, w')).
Proof.
  intros H.
  apply (H 1 (Some 0) [OpCreate Uno] one_sixtieth
           {| m_root := Some 0; m_nodes := [Some 0] |}
           {| mem := [Uno_ctor]; cout := [] |}
           eq_refl eq_refl
           {| mem := [Uno_ctor]; cout := ["Uno -> SUCCESS"] |}).
  reflexivity.
Qed.

(** C3, amended.  [run] checks nothing: it is the virtual call of [update]
    through whatever the root pointer holds, with the status dropped.  If
    the root pointer is null or designates no live node the call is
    undefined behaviour, not a reported error; if it designates a live
    node, that node is evaluated, whether or not [setRoot] put it there;
    and after [setRoot] the node given is the one evaluated. *)
Theorem run_unchecked (fuel : nat) (bt : BehaviorTree) (dt : float)
    (w : World) :
  run fuel bt dt w =
    match update fuel (m_root bt) dt w with
    | Ok (_, w') => Ok (tt, w')
    | Undefined => Undefined
    | OutOfFuel => OutOfFuel
    end /\
  ((m_root bt ≫= (mem w !!.)) = None -> run (S fuel) bt dt w = Undefined) /\
  (forall a obj, m_root bt = Some a -> mem w !! a = Some obj ->
     tree_ok fuel (mem w) (Some a) = true ->
     exists r w', update fuel (Some a) dt w = Ok (r, w') /\
                  run fuel bt dt w = Ok (tt, w')) /\
  (forall node, run fuel (setRoot node bt) dt w =
     match update fuel node dt w with
     | Ok (_, w') => Ok (tt, w')
     | Undefined => Undefined
     | OutOfFuel => OutOfFuel
     end).
Proof.
  assert (Hrun : forall b, run fuel b dt w =
            match update fuel (m_root b) dt w with
            | Ok (_, w') => Ok (tt, w')
            | Undefined => Undefined
            | OutOfFuel => OutOfFuel
            end).
  { intros b. unfold run, bind. by destruct (update fuel (m_root b) dt w) as [[]| |]. }
  split; [apply Hrun |]. split; [| split].
  - intros Hnone. unfold run, bind. simpl. unfold bind, deref.
    destruct (m_root bt) as [a|]; [| reflexivity].
    simpl in Hnone. by rewrite Hnone.
  - intros a obj Hroot Ha Hok.
    destruct (update_total _ _ dt _ Hok) as (r & w' & H).
    exists r, w'. split; [exact H |]. by rewrite Hrun, Hroot, H.
  - intros node. apply Hrun.
Qed.

(** * Further properties of the node and tree operations *)

(** ** create *)

Lemma make_unique_constructed cls w :
  make_unique cls w =
    Ok (Some (length (mem w)),
        {| mem := mem w ++ [constructed cls]; cout := cout w |}).
Proof. by destruct cls. Qed.

(** X1. [create] always returns.  The pointer it returns is the address of
    a node that did not exist before; the node has the requested class,
    the node type of that class, no parent and no children.  Existing
    nodes, [cout] and the root pointer are untouched and the pointer is
    appended to the storage of the tree. *)
Theorem create_fresh (cls : NodeClass) (bt : BehaviorTree) (w : World) :
  exists p bt' w',
    create cls bt w = Ok ((p, bt'), w') /\
    (p ≫= (mem w !!.)) = None /\
    (dyn_class <$> (p ≫= (mem w' !!.))) = Some cls /\
    getNodeType p w' = Ok (type_of_class cls, w') /\
    getParent p w' = Ok (nullptr, w') /\
    hasChildren p w' = Ok (false, w') /\
    (forall a obj, mem w !! a = Some obj -> mem w' !! a = Some obj) /\
    length (mem w') = S (length (mem w)) /\
    cout w' = cout w /\
    m_root bt' = m_root bt /\
    m_nodes bt' = m_nodes bt ++ [p].
Proof.
  exists (Some (length (mem w))),
    {| m_root := m_root bt; m_nodes := m_nodes bt ++ [Some (length (mem w))] |},
    {| mem := mem w ++ [constructed cls]; cout := cout w |}.
  assert (Hnew : (mem w ++ [constructed cls]) !! length (mem w)
                 = Some (constructed cls)).
  { by rewrite lookup_app_r, Nat.sub_diag. }
  split. { unfold create, bind. by rewrite make_unique_constructed. }
  split. { simpl. apply lookup_ge_None. lia. }
  split. { simpl. rewrite Hnew. by destruct cls. }
  unfold getNodeType, getParent, hasChildren, bind, deref. simpl. rewrite Hnew.
  split; [reflexivity |]. split; [by destruct cls |]. split; [by destruct cls |].
  split. { intros a obj Ha. by apply lookup_app_l_Some. }
  split. { rewrite length_app. simpl. lia. }
  done.
Qed.

(** ** The storage of the tree *)

Lemma exec_m_nodes fuel o bt w bt' w' :
  exec fuel o bt w = Ok (bt', w') ->
  m_nodes bt = Some <$> seq 0 (length (mem w)) ->
  m_nodes bt' = Some <$> seq 0 (length (mem w')).
Proof.
  intros H Hinv.
  assert (Hsame : forall (c : M unit),
            (c ;; ret bt) w = Ok (bt', w') ->
            (forall u w1, c w = Ok (u, w1) -> length (mem w1) = length (mem w)) ->
            m_nodes bt' = Some <$> seq 0 (length (mem w'))).
  { intros c Hc Hlen. apply bind_Ok in Hc as (u & w1 & Hc & [= <- <-]).
    by rewrite (Hlen _ _ Hc). }
  destruct o; simpl in H.
  - unfold create, bind in H. rewrite make_unique_constructed in H.
    injection H as <- <-. simpl. rewrite Hinv, length_app. simpl.
    rewrite Nat.add_1_r, seq_S, fmap_app. reflexivity.
  - by injection H as <- <-.
  - apply (Hsame _ H). intros [] w1 Hr. unfold run in Hr.
    apply bind_Ok in Hr as (st & w2 & Hu & [= <-]).
    by apply update_is_observable in Hu as [-> _].
  - by injection H as <- <-.
  - apply bind_Ok in H as (st & w1 & Hu & [= <- <-]).
    by apply update_is_observable in Hu as [-> _].
  - apply bind_Ok in H as (x & w1 & Hg & [= <- <-]). by apply getter_Ok in Hg as ->.
  - apply bind_Ok in H as (x & w1 & Hg & [= <- <-]). by apply getter_Ok in Hg as ->.
  - apply bind_Ok in H as (x & w1 & Hg & [= <- <-]). by apply getter_Ok in Hg as ->.
  - apply bind_Ok in H as (x & w1 & Hg & [= <- <-]). by apply getter_Ok in Hg as ->.
  - apply (Hsame _ H). intros [] w1 Ha.
    apply addChildren_Ok in Ha as (a & obj & _ & _ & ->). simpl.
    apply length_insert.
Qed.

Lemma exec_all_m_nodes fuel ops : forall bt w bt' w',
  exec_all fuel ops bt w = Ok (bt', w') ->
  m_nodes bt = Some <$> seq 0 (length (mem w)) ->
  m_nodes bt' = Some <$> seq 0 (length (mem w')).
Proof.
  induction ops as [|o ops IH]; simpl; intros bt w bt' w' H Hinv.
  - by injection H as <- <-.
  - apply bind_Ok in H as (bt1 & w1 & Ho & H).
    eapply IH; [exact H |]. by eapply exec_m_nodes.
Qed.

(** X2. After any host program run on a default-initialised tree and an
    empty node memory, the storage of the tree holds the address of every
    node there is, each once, in the order of creation: every node is owned
    by the tree and every stored pointer designates a live node. *)
Theorem storage_owns_every_node (fuel : nat) (ops : list op)
    (indeterminate : t_nodeRawPtr) (bt : BehaviorTree) (w : World) :
  exec_all fuel ops (BehaviorTree_default indeterminate) empty_world
    = Ok (bt, w) ->
  m_nodes bt = Some <$> seq 0 (length (mem w)) /\
  NoDup (m_nodes bt) /\
  length (m_nodes bt) = length (mem w) /\
  (forall p, p ∈ m_nodes bt -> exists obj, deref p w = Ok (obj, w)) /\
  (forall a obj, mem w !! a = Some obj -> Some a ∈ m_nodes bt).
Proof.
  intros H. apply exec_all_m_nodes in H; [| reflexivity].
  split; [exact H |]. rewrite H. split.
  { apply (NoDup_fmap_2 _). apply NoDup_seq. }
  split. { by rewrite length_fmap, length_seq. }
  split.
  - intros p Hp. apply list_elem_of_fmap in Hp as (a & -> & Ha).
    apply elem_of_seq in Ha as [_ Ha]. simpl in Ha.
    destruct (lookup_lt_is_Some_2 (mem w) a Ha) as [obj Hobj].
    exists obj. unfold deref. by rewrite Hobj.
  - intros a obj Ha. apply list_elem_of_fmap. exists a. split; [done |].
    apply elem_of_seq. apply lookup_lt_Some in Ha. lia.
Qed.

Lemma storage_owns_every_node_witness :
  exists bt w,
    exec_all 2 link_esto (BehaviorTree_default nullptr) empty_world = Ok (bt, w) /\
    m_nodes bt = [Some 0; Some 1; Some 2].
Proof.
  eexists _, _. split; [reflexivity |].
  exact (proj1 (storage_owns_every_node 2 link_esto nullptr _ _ eq_refl)).
Defined.

(** ** Node types *)

Lemma exec_mem_cases fuel o bt w bt' w' :
  exec fuel o bt w = Ok (bt', w') ->
  mem w' = mem w \/
  (exists cls, mem w' = mem w ++ [constructed cls]) \/
  (exists a obj c, mem w !! a = Some obj /\
     mem w' = <[a := with_child obj c]> (mem w)).
Proof.
  destruct o; simpl; intros H.
  - unfold create, bind in H. rewrite make_unique_constructed in H.
    injection H as _ <-. right. left. by exists cls.
  - injection H as _ <-. by left.
  - apply bind_Ok in H as ([] & w1 & H & [= _ <-]).
    unfold run in H. apply bind_Ok in H as (st & w2 & H & [= <-]).
    apply update_is_observable in H as [-> _]. by left.
  - injection H as _ <-. by left.
  - apply bind_Ok in H as (st & w1 & H & [= _ <-]).
    apply update_is_observable in H as [-> _]. by left.
  - apply bind_Ok in H as (x & w1 & H & [= _ <-]).
    apply getter_Ok in H as ->. by left.
  - apply bind_Ok in H as (x & w1 & H & [= _ <-]).
    apply getter_Ok in H as ->. by left.
  - apply bind_Ok in H as (x & w1 & H & [= _ <-]).
    apply getter_Ok in H as ->. by left.
  - apply bind_Ok in H as (x & w1 & H & [= _ <-]).
    apply getter_Ok in H as ->. by left.
  - apply bind_Ok in H as (x & w1 & H & [= _ <-]).
    apply addChildren_Ok in H as (a & obj & _ & Ha & ->).
    right. right. by exists a, obj, node.
Qed.

(** A property of single nodes that constructors establish and
    [push_back] keeps holds of every node after every host program. *)
Lemma exec_all_node_invariant (P : IBehaviorTreeNode -> Prop) :
  (forall cls, P (constructed cls)) ->
  (forall obj c, P obj -> P (with_child obj c)) ->
  forall fuel ops bt w bt' w',
    exec_all fuel ops bt w = Ok (bt', w') ->
    Forall P (mem w) -> Forall P (mem w').
Proof.
  intros Hnew Hpush fuel ops.
  induction ops as [|o ops IH]; simpl; intros bt w bt' w' H Hw.
  - by injection H as _ <-.
  - apply bind_Ok in H as (bt1 & w1 & Ho & H).
    eapply IH; [exact H |].
    apply exec_mem_cases in Ho
      as [-> | [(cls & ->) | (a & obj & c & Ha & ->)]].
    + exact Hw.
    + apply Forall_app. split; [exact Hw |]. by repeat constructor.
    + apply Forall_insert; [exact Hw |]. apply Hpush.
      by apply (Forall_lookup_1 _ _ _ _ Hw Ha).
Qed.

(** X3. After any host program run on a default-initialised tree and an
    empty node memory, [getNodeType] of every node returns the type its
    class passes to the base constructor: SEQUENCE exactly for Sequence
    objects, FALLBACK exactly for Fallback objects, ACTION for the five
    execution nodes; CONDITION is the type of no node. *)
Theorem getNodeType_matches_class (fuel : nat) (ops : list op)
    (indeterminate : t_nodeRawPtr) (bt : BehaviorTree) (w : World) (a : nat)
    (obj : IBehaviorTreeNode) :
  exec_all fuel ops (BehaviorTree_default indeterminate) empty_world
    = Ok (bt, w) ->
  mem w !! a = Some obj ->
  getNodeType (Some a) w = Ok (type_of_class (dyn_class obj), w) /\
  m_type obj <> CONDITION /\
  (m_type obj = SEQUENCE <-> dyn_class obj = Sequence) /\
  (m_type obj = FALLBACK <-> dyn_class obj = Fallback) /\
  (m_type obj = ACTION <->
   dyn_class obj <> Sequence /\ dyn_class obj <> Fallback).
Proof.
  intros H Ha.
  apply (exec_all_node_invariant
           (fun o => m_type o = type_of_class (dyn_class o))) in H.
  - pose proof (Forall_lookup_1 _ _ _ _ H Ha) as Hty. simpl in Hty.
    unfold getNodeType, bind, deref. rewrite Ha. unfold ret. rewrite Hty.
    split; [reflexivity |].
    destruct (dyn_class obj); unfold type_of_class; simpl;
      repeat split; try done; intros []; done.
  - by intros [].
  - by intros o c Ho.
  - constructor.
Qed.

Lemma getNodeType_matches_class_witness :
  exists bt w,
    exec_all 2 link_esto (BehaviorTree_default nullptr) empty_world = Ok (bt, w) /\
    getNodeType (Some 2) w = Ok (ACTION, w).
Proof.
  eexists _, _. split; [reflexivity |].
  exact (proj1 (getNodeType_matches_class 2 link_esto nullptr _ _ 2 Esto_ctor
                  eq_refl eq_refl)).
Defined.

(** ** hasChildren *)

Lemma hasChildren_true this w :
  hasChildren this w = Ok (true, w) <->
  exists a obj, this = Some a /\ mem w !! a = Some obj /\ m_children obj <> [].
Proof.
  unfold hasChildren, bind, deref. destruct this as [a|]; simpl.
  - destruct (mem w !! a) as [obj|] eqn:E; simpl.
    + split.
      * intros H. exists a, obj. repeat split; try done.
        destruct (m_children obj); [discriminate | done].
      * intros (b & o & [= <-] & Hb & Hne). rewrite E in Hb. injection Hb as <-.
        by destruct (m_children obj).
    + split; [discriminate | intros (b & o & [= <-] & Hb & _); congruence].
  - split; [discriminate | intros (b & o & Hb & _); discriminate].
Qed.

(** X4. After [addChildren] on a live node, [hasChildren] of that node
    returns true, and it returns true after every host program run from
    there on: a node that has a child never becomes childless again. *)
Theorem hasChildren_stays_true (w : World) (a : nat) (obj : IBehaviorTreeNode)
    (c : t_nodeRawPtr) :
  mem w !! a = Some obj ->
  exists w1,
    addChildren (Some a) c w = Ok (tt, w1) /\
    hasChildren (Some a) w1 = Ok (true, w1) /\
    forall fuel ops bt bt' w',
      exec_all fuel ops bt w1 = Ok (bt', w') ->
      hasChildren (Some a) w' = Ok (true, w').
Proof.
  intros Ha.
  set (w1 := {| mem := <[a := with_child obj c]> (mem w); cout := cout w |}).
  assert (Hlook : mem w1 !! a = Some (with_child obj c)).
  { apply list_lookup_insert_eq. by eapply lookup_lt_Some. }
  assert (H1 : hasChildren (Some a) w1 = Ok (true, w1)).
  { apply hasChildren_true. exists a, (with_child obj c).
    repeat split; try done. simpl. by destruct (m_children obj). }
  exists w1. split; [apply addChildren_Ok; by exists a, obj |].
  split; [exact H1 |]. intros fuel ops bt bt' w' H.
  apply exec_all_children_kept in H.
  destruct (H _ _ Hlook) as (new & Hnew & Hpre).
  apply hasChildren_true. exists a, new. repeat split; try done.
  intros Hnil. rewrite Hnil in Hpre. apply prefix_nil_inv in Hpre.
  simpl in Hpre. by destruct (m_children obj).
Qed.

Lemma hasChildren_stays_true_witness :
  exists w1,
    addChildren (Some 2) (Some 4) main_world = Ok (tt, w1) /\
    hasChildren (Some 2) w1 = Ok (true, w1).
Proof.
  destruct (hasChildren_stays_true main_world 2 Esto_ctor (Some 4) eq_refl)
    as (w1 & H & Hh & _).
  by exists w1.
Defined.

(** ** The root pointer *)

Lemma exec_m_root fuel o bt w bt' w' :
  exec fuel o bt w = Ok (bt', w') ->
  m_root bt' = match o with OpSetRoot node => node | _ => m_root bt end.
Proof.
  destruct o; simpl; intros H;
    try (apply bind_Ok in H as (x & w1 & _ & [= <- _]); reflexivity);
    try (injection H as <- _; reflexivity).
Qed.

(** X11. Only [setRoot] writes the root pointer: after a host program the
    root is the argument of its last [setRoot], whatever that pointer is
    (null and dangling pointers are accepted as they are), and the root
    the tree had before when the program calls no [setRoot]. *)
Theorem root_is_last_setRoot (fuel : nat) (ops : list op) (bt : BehaviorTree)
    (w : World) (bt' : BehaviorTree) (w' : World) :
  exec_all fuel ops bt w = Ok (bt', w') ->
  getRoot bt' = last_setRoot ops (m_root bt).
Proof.
  revert bt w. induction ops as [|o ops IH]; simpl; intros bt w H.
  - by injection H as <- _.
  - apply bind_Ok in H as (bt1 & w1 & Ho & H).
    rewrite (IH _ _ H). unfold last_setRoot. simpl.
    by rewrite (exec_m_root _ _ _ _ _ _ Ho).
Qed.

Lemma root_is_last_setRoot_witness :
  exists bt w,
    exec_all 2 (link_esto ++ [OpSetRoot nullptr; OpCreate Uno])
      (BehaviorTree_default (Some 5)) empty_world = Ok (bt, w) /\
    getRoot bt = nullptr.
Proof.
  eexists _, _. split; [reflexivity |].
  exact (root_is_last_setRoot 2 (link_esto ++ [OpSetRoot nullptr; OpCreate Uno])
           (BehaviorTree_default (Some 5)) empty_world _ _ eq_refl).
Defined.

(** ** nodeStatusToString *)

(** X12. [nodeStatusToString] gives different statuses different names,
    and for none of the three statuses the empty name of its last
    [return]. *)
Theorem nodeStatusToString_injective (s1 s2 : e_status) :
  (nodeStatusToString s1 = nodeStatusToString s2 <-> s1 = s2) /\
  nodeStatusToString s1 <> "".
Proof. split; [split; [| by intros ->] |]; by destruct s1, s2. Qed.

(** ** addChildren, composed *)

Lemma addChildren_run a c w :
  addChildren (Some a) c w =
    match mem w !! a with
    | Some obj =>
        Ok (tt, {| mem := <[a := with_child obj c]> (mem w); cout := cout w |})
    | None => Undefined
    end.
Proof.
  unfold addChildren, bind, deref, store.
  destruct (mem w !! a) as [obj|] eqn:E; simpl; by rewrite ?E.
Qed.

(** X13. Calls of [addChildren] on two different nodes commute: in either
    order they leave the same world, or are both undefined. *)
Theorem addChildren_commute (a b : nat) (c d : t_nodeRawPtr) (w : World) :
  a <> b ->
  (addChildren (Some a) c ;; addChildren (Some b) d) w =
  (addChildren (Some b) d ;; addChildren (Some a) c) w.
Proof.
  intros Hne. unfold bind. rewrite !addChildren_run.
  destruct (mem w !! a) as [oa|] eqn:Ea, (mem w !! b) as [ob|] eqn:Eb;
    rewrite ?addChildren_run; simpl;
    rewrite ?list_lookup_insert_ne by done; rewrite ?Ea, ?Eb; try reflexivity.
  by rewrite list_insert_insert_ne.
Qed.

Lemma addChildren_commute_witness :
  (addChildren (Some 0) (Some 2) ;; addChildren (Some 1) (Some 4)) main_world =
  (addChildren (Some 1) (Some 4) ;; addChildren (Some 0) (Some 2)) main_world.
Proof. apply addChildren_commute. discriminate. Defined.

(** X14. Adding the pointers [cs] to a live node one after the other
    returns and leaves the node with its old child list followed by [cs],
    in the order of the calls, duplicates and null pointers included; no
    other node, and neither the tree nor [cout], changes. *)
Theorem addChildren_in_call_order (fuel : nat) (cs : list t_nodeRawPtr)
    (bt : BehaviorTree) (w : World) (a : nat) (obj : IBehaviorTreeNode) :
  mem w !! a = Some obj ->
  exists w',
    exec_all fuel (OpAddChildren (Some a) <$> cs) bt w = Ok (bt, w') /\
    getChildren (Some a) w' = Ok (m_children obj ++ cs, w') /\
    (forall b, b <> a -> mem w' !! b = mem w !! b) /\
    cout w' = cout w.
Proof.
  revert w obj. induction cs as [|c cs IH]; intros w obj Ha.
  - exists w. split; [reflexivity |].
    split; [unfold getChildren, bind, deref; by rewrite Ha, app_nil_r |].
    done.
  - set (w1 := {| mem := <[a := with_child obj c]> (mem w); cout := cout w |}).
    assert (Hlook : mem w1 !! a = Some (with_child obj c)).
    { apply list_lookup_insert_eq. by eapply lookup_lt_Some. }
    destruct (IH w1 _ Hlook) as (w' & Hrun & Hget & Hother & Hcout).
    exists w'. split.
    { simpl. unfold bind at 1. unfold bind at 1. rewrite addChildren_run, Ha.
      exact Hrun. }
    split. { rewrite Hget. simpl. by rewrite <- app_assoc. }
    split; [| exact Hcout].
    intros b Hb. rewrite (Hother b Hb). simpl.
    by rewrite list_lookup_insert_ne.
Qed.

Lemma addChildren_in_call_order_witness :
  exists w',
    exec_all 0 (OpAddChildren (Some 2) <$> [Some 4; nullptr; Some 4])
      main_tree main_world = Ok (main_tree, w') /\
    getChildren (Some 2) w' = Ok ([Some 4; nullptr; Some 4], w').
Proof.
  destruct (addChildren_in_call_order 0 [Some 4; nullptr; Some 4] main_tree
              main_world 2 Esto_ctor eq_refl) as (w' & H & Hg & _).
  by exists w'.
Defined.

(** ** Children behind the point where a loop stops *)

Lemma Fallback_for_skip f dt pre rest w sts w1 :
  invoked_in_order f dt pre w sts w1 ->
  Forall (eq FAILURE) sts ->
  Fallback_for f (pre ++ rest) dt w = Fallback_for f rest dt w1.
Proof.
  induction 1 as [w | c cs w st w1 sts w2 Hc _ IH]; intros Hsts; [reflexivity |].
  apply Forall_cons in Hsts as [<- Hsts]. simpl. unfold bind. rewrite Hc.
  simpl. by apply IH.
Qed.

Lemma Sequence_for_skip f dt pre rest w sts w1 :
  invoked_in_order f dt pre w sts w1 ->
  Forall (eq SUCCESS) sts ->
  Sequence_for f (pre ++ rest) dt w = Sequence_for f rest dt w1.
Proof.
  induction 1 as [w | c cs w st w1 sts w2 Hc _ IH]; intros Hsts; [reflexivity |].
  apply Forall_cons in Hsts as [<- Hsts]. simpl. unfold bind. rewrite Hc.
  simpl. by apply IH.
Qed.

Lemma invoked_in_order_mem fuel dt cs w sts w' :
  invoked_in_order (update fuel) dt cs w sts w' -> mem w' = mem w.
Proof.
  induction 1 as [w | c cs w st w1 sts w2 Hc _ IH]; [reflexivity |].
  apply update_is_observable in Hc as [Hm _]. congruence.
Qed.

(** X5. A Fallback whose children [pre] return FAILURE and whose next
    child [c] returns SUCCESS returns SUCCESS in the world [c] left,
    whatever stands behind [c] in its child list: null pointers, dangling
    pointers and links that close a cycle are never looked at. *)
Theorem Fallback_success_shields_rest (d : nat) (dt : float) (w : World)
    (s : nat) (obj : IBehaviorTreeNode) (pre : list t_nodeRawPtr)
    (c : t_nodeRawPtr) (post : list t_nodeRawPtr) (sts : list e_status)
    (w1 w' : World) :
  mem w !! s = Some obj ->
  dyn_class obj = Fallback ->
  m_children obj = pre ++ c :: post ->
  invoked_in_order (update d) dt pre
    {| mem := mem w; cout := cout w ++ ["Running FALLBACK"] |} sts w1 ->
  Forall (eq FAILURE) sts ->
  update d c dt w1 = Ok (SUCCESS, w') ->
  update (S d) (Some s) dt w = Ok (SUCCESS, w').
Proof.
  intros Ha Hcls Hcs Hpre Hsts Hc.
  rewrite (update_live _ _ _ _ _ Ha), Hcls.
  rewrite (Fallback_update_live _ _ _ _ _ Ha), Hcs.
  rewrite (Fallback_for_skip _ _ _ _ _ _ _ Hpre Hsts).
  simpl. unfold bind. by rewrite Hc.
Qed.

Lemma Fallback_success_shields_rest_witness :
  update 2 (Some 0) one_sixtieth shielded_fallback_world =
    Ok (SUCCESS,
        {| mem := mem shielded_fallback_world;
           cout := ["Running FALLBACK"; "Uno -> SUCCESS"] |}).
Proof.
  apply (Fallback_success_shields_rest 1 one_sixtieth shielded_fallback_world 0
           (mkNode Fallback FALLBACK nullptr [Some 1; nullptr; Some 7])
           [] (Some 1) [nullptr; Some 7] []
           {| mem := mem shielded_fallback_world; cout := ["Running FALLBACK"] |});
    try reflexivity; constructor.
Defined.

(** X6. A Sequence whose children [pre] return SUCCESS and whose next
    child [c] returns FAILURE returns FAILURE in the world [c] left,
    whatever stands behind [c] in its child list. *)
Theorem Sequence_failure_shields_rest (d : nat) (dt : float) (w : World)
    (s : nat) (obj : IBehaviorTreeNode) (pre : list t_nodeRawPtr)
    (c : t_nodeRawPtr) (post : list t_nodeRawPtr) (sts : list e_status)
    (w1 w' : World) :
  mem w !! s = Some obj ->
  dyn_class obj = Sequence ->
  m_children obj = pre ++ c :: post ->
  invoked_in_order (update d) dt pre
    {| mem := mem w; cout := cout w ++ ["Running SEQUENCE"] |} sts w1 ->
  Forall (eq SUCCESS) sts ->
  update d c dt w1 = Ok (FAILURE, w') ->
  update (S d) (Some s) dt w = Ok (FAILURE, w').
Proof.
  intros Ha Hcls Hcs Hpre Hsts Hc.
  rewrite (update_live _ _ _ _ _ Ha), Hcls.
  rewrite (Sequence_update_live _ _ _ _ _ Ha), Hcs.
  rewrite (Sequence_for_skip _ _ _ _ _ _ _ Hpre Hsts).
  simpl. unfold bind. by rewrite Hc.
Qed.

Lemma Sequence_failure_shields_rest_witness :
  update 2 (Some 0) one_sixtieth shielded_sequence_world =
    Ok (FAILURE,
        {| mem := mem shielded_sequence_world;
           cout := ["Running SEQUENCE"; "Esto -> FAILURE"] |}).
Proof.
  apply (Sequence_failure_shields_rest 1 one_sixtieth shielded_sequence_world 0
           (mkNode Sequence SEQUENCE nullptr [Some 1; nullptr])
           [] (Some 1) [nullptr] []
           {| mem := mem shielded_sequence_world; cout := ["Running SEQUENCE"] |});
    try reflexivity; constructor.
Defined.

(** ** Child pointers that designate no node *)

Lemma update_dead fuel c dt w :
  (c ≫= (mem w !!.)) = None -> update (S fuel) c dt w = Undefined.
Proof.
  intros H. simpl. unfold bind, deref. destruct c as [a|]; [| reflexivity].
  simpl in H. by rewrite H.
Qed.

(** X7. [addChildren] accepts any pointer, and a control node
    dereferences the children it reaches: when the children [pre] have let
    the loop go on (SUCCESS in a Sequence, FAILURE in a Fallback) and the
    next child pointer is null or designates no live node, the update of
    the control node is undefined behaviour. *)
Theorem dead_child_is_undefined (d : nat) (dt : float) (w : World) (s : nat)
    (obj : IBehaviorTreeNode) (pre : list t_nodeRawPtr) (c : t_nodeRawPtr)
    (post : list t_nodeRawPtr) (sts : list e_status) (w1 : World) :
  mem w !! s = Some obj ->
  m_children obj = pre ++ c :: post ->
  (c ≫= (mem w !!.)) = None ->
  (dyn_class obj = Sequence ->
   invoked_in_order (update (S d)) dt pre
     {| mem := mem w; cout := cout w ++ ["Running SEQUENCE"] |} sts w1 ->
   Forall (eq SUCCESS) sts ->
   update (S (S d)) (Some s) dt w = Undefined) /\
  (dyn_class obj = Fallback ->
   invoked_in_order (update (S d)) dt pre
     {| mem := mem w; cout := cout w ++ ["Running FALLBACK"] |} sts w1 ->
   Forall (eq FAILURE) sts ->
   update (S (S d)) (Some s) dt w = Undefined).
Proof.
  intros Ha Hcs Hdead. split; intros Hcls Hpre Hsts;
    rewrite (update_live _ _ _ _ _ Ha), Hcls;
    pose proof (invoked_in_order_mem _ _ _ _ _ _ Hpre) as Hm; simpl in Hm.
  - rewrite (Sequence_update_live _ _ _ _ _ Ha), Hcs.
    rewrite (Sequence_for_skip _ _ _ _ _ _ _ Hpre Hsts).
    cbn [Sequence_for]. unfold bind.
    by rewrite update_dead by (by rewrite Hm).
  - rewrite (Fallback_update_live _ _ _ _ _ Ha), Hcs.
    rewrite (Fallback_for_skip _ _ _ _ _ _ _ Hpre Hsts).
    cbn [Fallback_for]. unfold bind.
    by rewrite update_dead by (by rewrite Hm).
Qed.

Lemma dead_child_is_undefined_witness :
  update 2 (Some 0) one_sixtieth null_child_world = Undefined.
Proof.
  refine (proj1 (dead_child_is_undefined 0 one_sixtieth null_child_world 0
           (mkNode Sequence SEQUENCE nullptr [Some 1; nullptr])
           [Some 1] nullptr [] [SUCCESS]
           {| mem := mem null_child_world;
              cout := ["Running SEQUENCE"; "Uno -> SUCCESS"] |}
           eq_refl eq_refl eq_refl) eq_refl _ _).
  - econstructor; [reflexivity | constructor].
  - by repeat constructor.
Defined.

(** ** Cycles *)

(** X8. [addChildren] does not refuse cycles.  A Sequence or Fallback
    whose first child is the node itself never returns from [update]: the
    nested calls go on without end, so every amount of fuel runs out. *)
Theorem self_child_never_returns (dt : float) (w : World) (a : nat)
    (obj : IBehaviorTreeNode) (rest : list t_nodeRawPtr) :
  mem w !! a = Some obj ->
  dyn_class obj = Sequence \/ dyn_class obj = Fallback ->
  m_children obj = Some a :: rest ->
  forall fuel, update fuel (Some a) dt w = OutOfFuel.
Proof.
  intros Ha Hcls Hcs fuel.
  assert (H : forall v, mem v = mem w -> update fuel (Some a) dt v = OutOfFuel);
    [| by apply H].
  induction fuel as [|n IH]; intros v Hv; [reflexivity |].
  rewrite <- Hv in Ha. rewrite (update_live _ _ _ _ _ Ha).
  destruct Hcls as [-> | ->].
  - rewrite (Sequence_update_live _ _ _ _ _ Ha), Hcs. simpl. unfold bind.
    by rewrite IH.
  - rewrite (Fallback_update_live _ _ _ _ _ Ha), Hcs. simpl. unfold bind.
    by rewrite IH.
Qed.

Lemma self_child_never_returns_witness :
  update 50 (Some 0) one_sixtieth self_child_world = OutOfFuel.
Proof.
  apply (self_child_never_returns one_sixtieth self_child_world 0
           (mkNode Sequence SEQUENCE nullptr [Some 0]) []);
    [reflexivity | by left | reflexivity].
Defined.

(** ** Ticking again and again *)

(** X9. On a finite tree [k] ticks in a row all return; together they
    print [k] times the lines of one tick, which are at least one line,
    and they change neither the node memory nor the tree. *)
Theorem ticks_repeat (fuel : nat) (bt : BehaviorTree) (dt : float) (w : World) :
  tree_ok fuel (mem w) (m_root bt) = true ->
  exists out,
    out <> [] /\
    forall k,
      exec_all fuel (replicate k (OpRun dt)) bt w =
        Ok (bt, {| mem := mem w; cout := cout w ++ concat (replicate k out) |}).
Proof.
  intros Hok. destruct (update_total _ _ dt _ Hok) as (r & w1 & H1).
  apply (stateless_run _ (update_stateless fuel)) in H1 as (_ & out & Hne & Hw & _).
  exists out. split; [exact Hne |]. intros k.
  assert (H : forall v, mem v = mem w ->
            exec_all fuel (replicate k (OpRun dt)) bt v =
              Ok (bt, {| mem := mem v;
                         cout := cout v ++ concat (replicate k out) |}));
    [| by apply H].
  induction k as [|k IH]; intros v Hv; simpl.
  - unfold ret. destruct v; simpl. by rewrite app_nil_r.
  - unfold bind at 1. unfold bind at 1. unfold run, bind. rewrite (Hw v Hv).
    simpl. rewrite IH by (simpl; exact Hv). simpl. by rewrite app_assoc.
Qed.

Lemma ticks_repeat_witness :
  exists out,
    out <> [] /\
    exec_all 3 (replicate 2 (OpRun one_sixtieth)) main_tree main_world =
      Ok (main_tree,
          {| mem := mem main_world; cout := cout main_world ++ out ++ out |}).
Proof.
  destruct (ticks_repeat 3 main_tree one_sixtieth main_world eq_refl)
    as (out & Hne & H).
  exists out. split; [exact Hne |]. rewrite (H 2). simpl.
  by rewrite app_nil_r.
Defined.

(** ** The status as a formula *)

Lemma forallb_Forall_iff {A} (g : A -> bool) l :
  forallb g l = true <-> Forall (fun x => g x = true) l.
Proof.
  induction l as [|x l IH]; simpl; [by split; [constructor |] |].
  rewrite andb_true_iff, Forall_cons. by rewrite IH.
Qed.

Lemma existsb_false_Forall {A} (g : A -> bool) l :
  existsb g l = false <-> Forall (fun x => g x = false) l.
Proof.
  induction l as [|x l IH]; simpl; [by split; [constructor |] |].
  rewrite orb_false_iff, Forall_cons. by rewrite IH.
Qed.

Lemma Forall_combine {A} (P Q R : A -> Prop) l :
  Forall P l -> Forall Q l -> (forall x, P x -> Q x -> R x) -> Forall R l.
Proof.
  intros HP HQ H. assert (HPQ : Forall (fun x => P x /\ Q x) l) by by apply Forall_and.
  eapply Forall_impl; [exact HPQ |]. intros x [Hp Hq]. by apply H.
Qed.

Lemma update_status_formula fuel dt : forall p w,
  tree_ok fuel (mem w) p = true ->
  gives (update fuel) dt w p (status_of_bool (succeeds fuel (mem w) p)).
Proof.
  induction fuel as [|n IH]; intros p w Hok; [discriminate |].
  apply tree_ok_live in Hok as (n' & a & obj & [= <-] & -> & Ha & Hcs).
  assert (Hret : Forall (returns_on (update n) dt w) (m_children obj)).
  { eapply Forall_impl; [exact Hcs |]. intros c Hc v Hv.
    apply update_total. by rewrite Hv. }
  assert (Hkid : forall st, Forall (fun c =>
            gives (update n) dt w c st <->
            status_of_bool (succeeds n (mem w) c) = st) (m_children obj)).
  { intros st. eapply Forall_impl; [exact Hcs |]. intros c Hc. split.
    - intros Hg. symmetry.
      exact (gives_functional _ dt w _ _ _ Hg (IH _ _ Hc)).
    - intros <-. by apply IH. }
  unfold gives. rewrite (update_live _ _ _ _ _ Ha).
  cbn [succeeds]. simpl. rewrite Ha.
  destruct (dyn_class obj); try by eexists.
  - rewrite (Fallback_update_live _ _ _ _ _ Ha).
    destruct (Fallback_for_spec (update n) dt w (update_stateless n)
                (m_children obj)
                {| mem := mem w; cout := cout w ++ ["Running FALLBACK"] |}
                eq_refl Hret)
      as (r & w' & k & sts & Hrun & _ & _ & Hcase & Hiff).
    exists w'. rewrite Hrun. do 2 f_equal.
    destruct (existsb (succeeds n (mem w)) (m_children obj)) eqn:E.
    + destruct Hcase as [(-> & _) | (-> & _)]; [| reflexivity].
      exfalso. assert (Hall : Forall (fun c => gives (update n) dt w c FAILURE)
                                (m_children obj)) by by apply Hiff.
      assert (existsb (succeeds n (mem w)) (m_children obj) = false);
        [| congruence].
      apply existsb_false_Forall.
      apply (Forall_combine _ _ _ _ Hall (Hkid FAILURE)).
      intros c Hg Hk. apply Hk in Hg.
      by destruct (succeeds n (mem w) c).
    + apply Hiff. apply existsb_false_Forall in E.
      apply (Forall_combine _ _ _ _ E (Hkid FAILURE)).
      intros c Hs Hk. apply Hk. by rewrite Hs.
  - rewrite (Sequence_update_live _ _ _ _ _ Ha).
    destruct (Sequence_for_spec (update n) dt w (update_stateless n)
                (m_children obj)
                {| mem := mem w; cout := cout w ++ ["Running SEQUENCE"] |}
                eq_refl Hret)
      as (r & w' & k & sts & Hrun & _ & _ & Hcase & Hiff).
    exists w'. rewrite Hrun. do 2 f_equal.
    destruct (forallb (succeeds n (mem w)) (m_children obj)) eqn:E.
    + apply Hiff. apply forallb_Forall_iff in E.
      apply (Forall_combine _ _ _ _ E (Hkid SUCCESS)).
      intros c Hs Hk. apply Hk. by rewrite Hs.
    + destruct Hcase as [(-> & _) | (-> & _)]; [| reflexivity].
      exfalso. assert (Hall : Forall (fun c => gives (update n) dt w c SUCCESS)
                                (m_children obj)) by by apply Hiff.
      assert (forallb (succeeds n (mem w)) (m_children obj) = true);
        [| congruence].
      apply forallb_Forall_iff.
      apply (Forall_combine _ _ _ _ Hall (Hkid SUCCESS)).
      intros c Hg Hk. apply Hk in Hg.
      by destruct (succeeds n (mem w) c).
Qed.

(** X15. On a finite tree the status [update] returns is the value of the
    tree read as a formula: a Sequence is the conjunction of its children,
    a Fallback their disjunction, Uno, Dos and Tres are true, Esto and
    Aquello false.  Stopping early changes what is printed, not the
    status; a control node counts in its parent like a leaf. *)
Theorem status_is_the_formula (fuel : nat) (p : t_nodeRawPtr) (dt : float)
    (w : World) :
  tree_ok fuel (mem w) p = true ->
  exists w',
    update fuel p dt w =
      Ok (if succeeds fuel (mem w) p then SUCCESS else FAILURE, w').
Proof. intros Hok. exact (update_status_formula fuel dt p w Hok). Qed.

Lemma status_is_the_formula_witness :
  succeeds 3 (mem main_world) (Some 1) = true /\
  exists w', update 3 (Some 1) one_sixtieth main_world = Ok (SUCCESS, w').
Proof.
  split; [reflexivity |].
  exact (status_is_the_formula 3 (Some 1) one_sixtieth main_world eq_refl).
Defined.

(** ** Nodes outside the tree *)

Lemma emitted_trans w w1 w' o1 o2 :
  cout w1 = cout w ++ o1 -> cout w' = cout w1 ++ o2 ->
  emitted w w' = emitted w w1 ++ emitted w1 w'.
Proof.
  intros H1 H2. rewrite (emitted_app _ _ _ H1), (emitted_app _ _ _ H2).
  apply emitted_app. by rewrite H2, H1, app_assoc.
Qed.

Section Extend.
Variable f : t_nodeRawPtr -> float -> M e_status.
Variable dt : float.
Variable m extra : list IBehaviorTreeNode.
Hypothesis f_stateless : stateless f.

Lemma Fallback_for_carries_over cs :
  Forall (carries_over f dt m extra) cs ->
  forall w r w' v,
    mem w = m -> Fallback_for f cs dt w = Ok (r, w') -> mem v = m ++ extra ->
    Fallback_for f cs dt v
      = Ok (r, {| mem := mem v; cout := cout v ++ emitted w w' |}).
Proof.
  induction cs as [|c cs IH]; intros Hall w r w' v Hw H Hv.
  - injection H as <- <-. simpl. unfold ret, emitted.
    rewrite drop_all, app_nil_r. by destruct v.
  - apply Forall_cons in Hall as [Hc Hall]. simpl in H.
    apply bind_Ok in H as (st & w1 & Hf & H). simpl. unfold bind.
    rewrite (Hc _ _ _ _ Hw Hf Hv).
    pose proof (stateless_run _ f_stateless _ _ _ _ _ Hf) as (_ & o1 & _ & _ & Hw1).
    destruct (decide (st = SUCCESS)) as [->|Hne].
    + by injection H as <- <-.
    + pose proof H as H'.
      apply (Fallback_for_writes _ f_stateless) in H' as (_ & o2 & Ho2).
      apply writes_run in Ho2. rewrite H in Ho2. injection Ho2 as Hw'.
      rewrite (IH Hall w1 r w'
                 {| mem := mem v; cout := cout v ++ emitted w w1 |}
                 (eq_trans (f_equal mem Hw1) Hw) H Hv).
      simpl. rewrite <- app_assoc.
      rewrite (emitted_trans w w1 w' o1 o2); [done | by rewrite Hw1 | by rewrite Hw'].
Qed.

Lemma Sequence_for_carries_over cs :
  Forall (carries_over f dt m extra) cs ->
  forall w r w' v,
    mem w = m -> Sequence_for f cs dt w = Ok (r, w') -> mem v = m ++ extra ->
    Sequence_for f cs dt v
      = Ok (r, {| mem := mem v; cout := cout v ++ emitted w w' |}).
Proof.
  induction cs as [|c cs IH]; intros Hall w r w' v Hw H Hv.
  - injection H as <- <-. simpl. unfold ret, emitted.
    rewrite drop_all, app_nil_r. by destruct v.
  - apply Forall_cons in Hall as [Hc Hall]. simpl in H.
    apply bind_Ok in H as (st & w1 & Hf & H). simpl. unfold bind.
    rewrite (Hc _ _ _ _ Hw Hf Hv).
    pose proof (stateless_run _ f_stateless _ _ _ _ _ Hf) as (_ & o1 & _ & _ & Hw1).
    destruct (decide (st = FAILURE)) as [->|Hne].
    + by injection H as <- <-.
    + pose proof H as H'.
      apply (Sequence_for_writes _ f_stateless) in H' as (_ & o2 & Ho2).
      apply writes_run in Ho2. rewrite H in Ho2. injection Ho2 as Hw'.
      rewrite (IH Hall w1 r w'
                 {| mem := mem v; cout := cout v ++ emitted w w1 |}
                 (eq_trans (f_equal mem Hw1) Hw) H Hv).
      simpl. rewrite <- app_assoc.
      rewrite (emitted_trans w w1 w' o1 o2); [done | by rewrite Hw1 | by rewrite Hw'].
Qed.
End Extend.

Lemma update_carries_over fuel dt m extra : forall p,
  tree_ok fuel m p = true -> carries_over (update fuel) dt m extra p.
Proof.
  induction fuel as [|n IH]; intros p Hok; [discriminate |].
  apply tree_ok_live in Hok as (n' & a & obj & [= <-] & -> & Ha & Hcs).
  assert (Hkids : Forall (carries_over (update n) dt m extra) (m_children obj)).
  { eapply Forall_impl; [exact Hcs |]. intros c Hc. by apply IH. }
  intros w r w' v Hw H Hv.
  assert (Hwa : mem w !! a = Some obj) by by rewrite Hw.
  assert (Hva : mem v !! a = Some obj) by (rewrite Hv; by apply lookup_app_l_Some).
  rewrite (update_live _ _ _ _ _ Hwa) in H. rewrite (update_live _ _ _ _ _ Hva).
  assert (Hleaf : forall line st,
            (cout_endl line ;; ret st) w = Ok (r, w') ->
            (cout_endl line ;; ret st) v =
              Ok (r, {| mem := mem v; cout := cout v ++ emitted w w' |})).
  { intros line st [= <- <-]. unfold bind, cout_endl, ret.
    by rewrite (emitted_app _ _ [line]). }
  assert (Hctl : forall (banner : string) loop,
            (forall w0 r0 w0' v0, mem w0 = m -> loop w0 = Ok (r0, w0') ->
               mem v0 = m ++ extra ->
               loop v0 = Ok (r0, {| mem := mem v0;
                                    cout := cout v0 ++ emitted w0 w0' |})) ->
            (forall w0 r0 w0', loop w0 = Ok (r0, w0') ->
               exists o, cout w0' = cout w0 ++ o) ->
            loop {| mem := mem w; cout := cout w ++ [banner] |} = Ok (r, w') ->
            loop {| mem := mem v; cout := cout v ++ [banner] |} =
              Ok (r, {| mem := mem v; cout := cout v ++ emitted w w' |})).
  { intros banner loop Hloop Hout Hrun.
    destruct (Hout _ _ _ Hrun) as (o & Ho).
    rewrite (Hloop {| mem := mem w; cout := cout w ++ [banner] |} r w'
               {| mem := mem v; cout := cout v ++ [banner] |} Hw Hrun Hv).
    simpl.
    rewrite (emitted_trans w {| mem := mem w; cout := cout w ++ [banner] |}
               w' [banner] o eq_refl Ho).
    rewrite (emitted_app w _ [banner]) by reflexivity. by rewrite <- app_assoc. }
  destruct (dyn_class obj); try (by apply Hleaf).
  - rewrite (Fallback_update_live _ _ _ _ _ Hwa) in H.
    rewrite (Fallback_update_live _ _ _ _ _ Hva).
    apply (Hctl _ (Fallback_for (update n) (m_children obj) dt)); [| | exact H].
    + by apply Fallback_for_carries_over; [apply update_stateless |].
    + intros w0 r0 w0' H0.
      apply (Fallback_for_writes _ (update_stateless n)) in H0 as H0'.
      destruct H0' as (_ & o & Ho). apply writes_run in Ho.
      rewrite H0 in Ho. injection Ho as ->. by exists o.
  - rewrite (Sequence_update_live _ _ _ _ _ Hwa) in H.
    rewrite (Sequence_update_live _ _ _ _ _ Hva).
    apply (Hctl _ (Sequence_for (update n) (m_children obj) dt)); [| | exact H].
    + by apply Sequence_for_carries_over; [apply update_stateless |].
    + intros w0 r0 w0' H0.
      apply (Sequence_for_writes _ (update_stateless n)) in H0 as H0'.
      destruct H0' as (_ & o & Ho). apply writes_run in Ho.
      rewrite H0 in Ho. injection Ho as ->. by exists o.
Qed.

(** X10. What a tick on a finite tree returns and prints depends on the
    nodes of the tree alone: in a node memory that holds further nodes
    after those there were, as after any number of [create] calls, the
    update of the same node returns the same status and prints the same
    lines. *)
Theorem later_nodes_do_not_matter (fuel : nat) (p : t_nodeRawPtr) (dt : float)
    (w : World) :
  tree_ok fuel (mem w) p = true ->
  exists r out,
    update fuel p dt w = Ok (r, {| mem := mem w; cout := cout w ++ out |}) /\
    (forall extra,
       update fuel p dt {| mem := mem w ++ extra; cout := cout w |} =
         Ok (r, {| mem := mem w ++ extra; cout := cout w ++ out |})) /\
    (forall cls bt, exists q bt' w',
       create cls bt w = Ok ((q, bt'), w') /\
       update fuel p dt w' = Ok (r, {| mem := mem w'; cout := cout w' ++ out |})).
Proof.
  intros Hok. destruct (update_total _ _ dt _ Hok) as (r & w' & H).
  pose proof (stateless_run _ (update_stateless fuel) _ _ _ _ _ H)
    as (_ & out & _ & _ & Hw').
  exists r, out. rewrite <- Hw'. split; [exact H |].
  assert (Hext : forall extra,
            update fuel p dt {| mem := mem w ++ extra; cout := cout w |} =
              Ok (r, {| mem := mem w ++ extra; cout := cout w ++ out |})).
  { intros extra.
    rewrite (update_carries_over fuel dt (mem w) extra p Hok w r w'
               {| mem := mem w ++ extra; cout := cout w |} eq_refl H eq_refl).
    simpl. rewrite (emitted_app _ _ out); [done | by rewrite Hw']. }
  split; [exact Hext |]. intros cls bt.
  eexists _, _, _. split.
  { unfold create, bind. rewrite make_unique_constructed. reflexivity. }
  apply Hext.
Qed.

Lemma later_nodes_do_not_matter_witness :
  exists r out,
    update 3 (Some 1) one_sixtieth main_world =
      Ok (r, {| mem := mem main_world; cout := cout main_world ++ out |}) /\
    update 3 (Some 1) one_sixtieth
      {| mem := mem main_world ++ [Uno_ctor; Fallback_ctor];
         cout := cout main_world |} =
      Ok (r, {| mem := mem main_world ++ [Uno_ctor; Fallback_ctor];
                cout := cout main_world ++ out |}).
Proof.
  destruct (later_nodes_do_not_matter 3 (Some 1) one_sixtieth main_world eq_refl)
    as (r & out & H & Hext & _).
  exists r, out. split; [exact H | apply Hext].
Defined.

(** * Properties of the widgets *)

Section GuiFacts.
Context {t_slot : Type}.
Implicit Types (g : Gui.World t_slot) (obj : Gui.Widget t_slot).

Lemma set_checked_same (c : Gui.Checkbox) :
  Gui.set_checked c (Gui.m_checked c) = c.
Proof. by destruct c. Qed.

Lemma set_hover_same (b : Gui.Button t_slot) :
  Gui.set_hover b (Gui.m_hover b) = b.
Proof. by destruct b. Qed.

Lemma Checkbox_onClick_run g a (c : Gui.Checkbox) :
  Gui.widgets g !! a = Some (Gui.WCheckbox c) ->
  Gui.Checkbox_onClick (Some a) tt g =
    Ok (tt,
        {| Gui.widgets :=
             <[a := Gui.WCheckbox
                      (Gui.set_checked c
                         (if Gui.m_greyedOut c then Gui.m_checked c
                          else negb (Gui.m_checked c)))]> (Gui.widgets g);
           Gui.cout :=
             Gui.cout g ++
             [" -> Checkbox::onClick() -> '" +:+ Gui.Checkbox_m_text c +:+ "'"] |}).
Proof.
  intros H. unfold Gui.Checkbox_onClick, Gui.as_Checkbox, Gui.bind, Gui.deref.
  simpl. rewrite H. simpl. destruct (Gui.m_greyedOut c); simpl.
  - rewrite set_checked_same. by rewrite list_insert_id.
  - unfold Gui.store. simpl. by rewrite H.
Qed.

Lemma click_times_run (n : nat) : forall g a (c : Gui.Checkbox),
  Gui.widgets g !! a = Some (Gui.WCheckbox c) ->
  Gui.click_times n (Some a) g =
    Ok (tt,
        {| Gui.widgets :=
             <[a := Gui.WCheckbox
                      (Gui.set_checked c
                         (if Gui.m_greyedOut c then Gui.m_checked c
                          else xorb (Gui.m_checked c) (Nat.odd n)))]>
               (Gui.widgets g);
           Gui.cout :=
             Gui.cout g ++
             replicate n
               (" -> Checkbox::onClick() -> '" +:+ Gui.Checkbox_m_text c +:+ "'") |}).
Proof.
  induction n as [|n IH]; intros g a c H.
  - cbn [Gui.click_times replicate]. unfold Gui.ret. rewrite app_nil_r.
    replace (if Gui.m_greyedOut c then Gui.m_checked c
             else xorb (Gui.m_checked c) (Nat.odd 0)) with (Gui.m_checked c)
      by (destruct (Gui.m_greyedOut c), (Gui.m_checked c); reflexivity).
    rewrite set_checked_same, list_insert_id by done. by destruct g.
  - cbn [Gui.click_times]. unfold Gui.bind at 1.
    rewrite (Checkbox_onClick_run _ _ _ H).
    rewrite (IH _ a (Gui.set_checked c
                       (if Gui.m_greyedOut c then Gui.m_checked c
                        else negb (Gui.m_checked c)))).
    + simpl. rewrite list_insert_insert_eq, <- app_assoc. do 4 f_equal.
      rewrite Nat.odd_succ, <- Nat.negb_odd.
      unfold Gui.set_checked. simpl. f_equal.
      by destruct (Gui.m_greyedOut c), (Gui.m_checked c), (Nat.odd n).
    + simpl. apply list_lookup_insert_eq. by eapply lookup_lt_Some.
Qed.

(** X16. [n] clicks on a checkbox all return and print its line [n]
    times.  A checkbox that is greyed out stays as it is; otherwise it is
    checked afterwards exactly when it was checked before and [n] is even,
    or was not and [n] is odd.  Its text, its greyed-out flag, its base
    members and all other widgets are untouched, and an even number of
    clicks restores the widget memory. *)
Theorem Checkbox_clicks (n : nat) (g : Gui.World t_slot) (a : nat)
    (c : Gui.Checkbox) :
  Gui.widgets g !! a = Some (Gui.WCheckbox c) ->
  exists g',
    Gui.click_times n (Some a) g = Ok (tt, g') /\
    Gui.Checkbox_isChecked (Some a) g' =
      Ok (if Gui.m_greyedOut c then Gui.m_checked c
          else xorb (Gui.m_checked c) (Nat.odd n), g') /\
    Gui.Checkbox_isGreyedOut (Some a) g' = Ok (Gui.m_greyedOut c, g') /\
    Gui.Checkbox_getText (Some a) g' = Ok (Gui.Checkbox_m_text c, g') /\
    (Gui.base_of <$> Gui.widgets g' !! a) = Some (Gui.Checkbox_base c) /\
    (forall b, b <> a -> Gui.widgets g' !! b = Gui.widgets g !! b) /\
    Gui.cout g' =
      Gui.cout g ++
      replicate n
        (" -> Checkbox::onClick() -> '" +:+ Gui.Checkbox_m_text c +:+ "'") /\
    (Nat.even n = true -> Gui.widgets g' = Gui.widgets g).
Proof.
  intros H. eexists. split; [by apply click_times_run |].
  assert (Hlook : forall o : Gui.Widget t_slot,
            <[a := o]> (Gui.widgets g) !! a = Some o).
  { intros o. apply list_lookup_insert_eq. by eapply lookup_lt_Some. }
  unfold Gui.Checkbox_isChecked, Gui.Checkbox_isGreyedOut, Gui.Checkbox_getText,
    Gui.as_Checkbox, Gui.bind, Gui.deref. simpl. rewrite !Hlook. simpl.
  repeat split; try reflexivity.
  - intros b Hb. by rewrite list_lookup_insert_ne.
  - intros Heven. rewrite <- Nat.negb_even, Heven. simpl.
    rewrite xorb_false_r.
    replace (if Gui.m_greyedOut c then Gui.m_checked c else Gui.m_checked c)
      with (Gui.m_checked c) by by destruct (Gui.m_greyedOut c).
    rewrite set_checked_same. by apply list_insert_id.
Qed.

Lemma last_nonempty_default {A} (l : list A) (e d d' : A) :
  List.last (e :: l) d = List.last (e :: l) d'.
Proof. revert e. induction l as [|x l IH]; intros e; [reflexivity | apply IH]. Qed.

Lemma mouse_event_run (ev : bool) g a obj :
  Gui.widgets g !! a = Some obj ->
  (if ev then Gui.onMouseOver (Some a) else Gui.onMouseLeave (Some a)) g =
    Ok (tt,
        {| Gui.widgets :=
             <[a := match obj with
                    | Gui.WButton b => Gui.WButton (Gui.set_hover b ev)
                    | Gui.WCheckbox c => Gui.WCheckbox c
                    end]> (Gui.widgets g);
           Gui.cout := Gui.cout g |}).
Proof.
  intros H.
  destruct ev, obj as [b|c];
    unfold Gui.onMouseOver, Gui.onMouseLeave, Gui.Button_onMouseOver,
      Gui.Button_onMouseLeave, Gui.as_Button, Gui.bind, Gui.deref, Gui.store;
    unfold Gui.ret; simpl; rewrite ?H; simpl; rewrite ?H; try reflexivity;
    rewrite list_insert_id by done; by destruct g.
Qed.

(** X17. After any series of mouse-over and mouse-leave events on a
    button, [isOnHover] tells the last event: true after the mouse came
    over it, false after it left, and the earlier state when there was no
    event.  The events change nothing else of the button, no other widget
    and not [cout]; on a checkbox they change nothing at all. *)
Theorem hover_follows_last_event (evs : list bool) (g : Gui.World t_slot)
    (a : nat) (obj : Gui.Widget t_slot) :
  Gui.widgets g !! a = Some obj ->
  exists g',
    Gui.mouse_events evs (Some a) g = Ok (tt, g') /\
    Gui.widgets g' =
      <[a := match obj with
             | Gui.WButton b =>
                 Gui.WButton (Gui.set_hover b (List.last evs (Gui.m_hover b)))
             | Gui.WCheckbox c => Gui.WCheckbox c
             end]> (Gui.widgets g) /\
    Gui.cout g' = Gui.cout g /\
    (forall b, obj = Gui.WButton b ->
       Gui.Button_isOnHover (Some a) g' =
         Ok (List.last evs (Gui.m_hover b), g')) /\
    (forall c, obj = Gui.WCheckbox c -> g' = g).
Proof.
  intros H.
  assert (Hrun : forall evs g obj, Gui.widgets g !! a = Some obj ->
            Gui.mouse_events evs (Some a) g =
              Ok (tt,
                  {| Gui.widgets :=
                       <[a := match obj with
                              | Gui.WButton b =>
                                  Gui.WButton
                                    (Gui.set_hover b
                                       (List.last evs (Gui.m_hover b)))
                              | Gui.WCheckbox c => Gui.WCheckbox c
                              end]> (Gui.widgets g);
                     Gui.cout := Gui.cout g |})).
  { clear. intros evs. induction evs as [|ev evs IH]; intros g obj H.
    - cbn [Gui.mouse_events List.last]. unfold Gui.ret.
      rewrite list_insert_id; [by destruct g |].
      destruct obj; [by rewrite set_hover_same | done].
    - cbn [Gui.mouse_events]. unfold Gui.bind at 1.
      rewrite (mouse_event_run ev _ _ _ H).
      erewrite IH; [| simpl; apply list_lookup_insert_eq; by eapply lookup_lt_Some].
      simpl. rewrite list_insert_insert_eq. do 4 f_equal.
      destruct obj as [b|c]; [| reflexivity]. f_equal. unfold Gui.set_hover.
      simpl. f_equal. destruct evs; [reflexivity | apply last_nonempty_default]. }
  eexists. split; [by apply Hrun |]. simpl.
  split; [reflexivity |]. split; [reflexivity |]. split.
  - intros b ->. unfold Gui.Button_isOnHover, Gui.as_Button, Gui.bind, Gui.deref.
    simpl. rewrite list_lookup_insert_eq by by eapply lookup_lt_Some.
    reflexivity.
  - intros c ->. rewrite list_insert_id by done. by destruct g.
Qed.

(** ** render *)

Lemma accept_run g p obj (renderer : Gui.RenderUI) :
  (p ≫= (Gui.widgets g !!.)) = Some obj ->
  Gui.accept p renderer g =
    Ok (tt, {| Gui.widgets := Gui.widgets g;
               Gui.cout := Gui.cout g ++ [Gui.render_line obj] |}).
Proof.
  intros H.
  unfold Gui.accept, Gui.Button_accept, Gui.Checkbox_accept, Gui.as_Button,
    Gui.as_Checkbox, Gui.bind, Gui.deref. rewrite H. simpl.
  destruct obj; rewrite H; reflexivity.
Qed.

Lemma render_for_run (renderer : Gui.RenderUI) ws : forall objs g,
  Forall2 (fun p obj => (p ≫= (Gui.widgets g !!.)) = Some obj) ws objs ->
  Gui.render_for ws renderer g =
    Ok (tt, {| Gui.widgets := Gui.widgets g;
               Gui.cout := Gui.cout g ++ (Gui.render_line <$> objs) |}).
Proof.
  induction ws as [|p ws IH]; intros objs g H.
  - apply Forall2_nil_inv_l in H as ->. simpl. unfold Gui.ret.
    rewrite app_nil_r. by destruct g.
  - apply Forall2_cons_inv_l in H as (obj & objs' & Hp & H & ->).
    cbn [Gui.render_for]. unfold Gui.bind at 1. rewrite (accept_run _ _ _ _ Hp).
    rewrite (IH objs') by exact H. simpl. by rewrite <- app_assoc.
Qed.

Lemma render_prints_each_widget_aux (ui : Gui.UserInterface)
    (g : Gui.World t_slot) (objs : list (Gui.Widget t_slot)) :
  Forall2 (fun p obj => (p ≫= (Gui.widgets g !!.)) = Some obj)
    (Gui.m_widgets ui) objs ->
  Gui.render ui g =
    Ok (tt, {| Gui.widgets := Gui.widgets g;
               Gui.cout := Gui.cout g ++ (Gui.render_line <$> objs) |}).
Proof. intros H. unfold Gui.render. by apply render_for_run. Qed.

(** X18. When every pointer the UserInterface stores designates a live
    widget, [render] returns after printing one line for each stored
    widget, in the order of the storage: the Button line for a Button, the
    Checkbox line for a Checkbox.  It changes no widget; with no widget
    stored it prints nothing. *)
Theorem render_prints_each_widget (ui : Gui.UserInterface)
    (g : Gui.World t_slot) (objs : list (Gui.Widget t_slot)) :
  Forall2 (fun p obj => (p ≫= (Gui.widgets g !!.)) = Some obj)
    (Gui.m_widgets ui) objs ->
  Gui.render ui g =
    Ok (tt, {| Gui.widgets := Gui.widgets g;
               Gui.cout := Gui.cout g ++ (Gui.render_line <$> objs) |}).
Proof. intros H. unfold Gui.render. by apply render_for_run. Qed.

(** A stored pointer that designates no widget makes [render] undefined
    once the loop reaches it. *)
Lemma render_for_dead (renderer : Gui.RenderUI) ws : forall objs g p rest,
  Forall2 (fun p obj => (p ≫= (Gui.widgets g !!.)) = Some obj) ws objs ->
  (p ≫= (Gui.widgets g !!.)) = None ->
  Gui.render_for (ws ++ p :: rest) renderer g = Undefined.
Proof.
  induction ws as [|q ws IH]; intros objs g p rest H Hp.
  - simpl. unfold Gui.bind, Gui.accept, Gui.bind, Gui.deref. by rewrite Hp.
  - apply Forall2_cons_inv_l in H as (obj & objs' & Hq & H & ->).
    cbn [app Gui.render_for]. unfold Gui.bind at 1.
    rewrite (accept_run _ _ _ _ Hq). by eapply IH.
Qed.

(** ** add *)

Lemma add_run (args : Gui.WidgetArgs t_slot) (ui : Gui.UserInterface) g :
  Gui.add args ui g =
    Ok ((Some (length (Gui.widgets g)),
         {| Gui.m_widgets := Gui.m_widgets ui ++ [Some (length (Gui.widgets g))];
            Gui.m_currentMouseOver := Gui.m_currentMouseOver ui;
            Gui.m_theme := Gui.m_theme ui;
            Gui.m_renderer := Gui.m_renderer ui |}),
        {| Gui.widgets := Gui.widgets g ++ [Gui.constructed (Gui.m_theme ui) args];
           Gui.cout := Gui.cout g |}).
Proof.
  unfold Gui.add, Gui.bind, Gui.make_unique, Gui.alloc, Gui.ret. simpl.
  rewrite last_last. by destruct args.
Qed.

(** X19. [add] always returns.  The pointer it returns designates the
    widget it has just constructed, which did not exist before: a widget
    of the requested class with the type of that class, active, visible,
    not resizable and not movable; a new Button is not hovered.  Earlier
    widgets and [cout] are untouched and the pointer is appended to the
    storage. *)
Theorem add_returns_new_widget (args : Gui.WidgetArgs t_slot)
    (ui : Gui.UserInterface) (g : Gui.World t_slot) :
  exists p ui' g' obj,
    Gui.add args ui g = Ok ((p, ui'), g') /\
    (p ≫= (Gui.widgets g !!.)) = None /\
    Gui.deref p g' = Ok (obj, g') /\
    obj = Gui.constructed (Gui.m_theme ui) args /\
    Gui.m_type (Gui.base_of obj) =
      match args with
      | Gui.CheckboxArgs _ _ _ _ => Gui.CHECKBOX
      | Gui.ButtonArgs _ _ _ _ => Gui.BUTTON
      end /\
    Gui.m_active (Gui.base_of obj) = true /\
    Gui.m_visible (Gui.base_of obj) = true /\
    Gui.m_resizable (Gui.base_of obj) = false /\
    Gui.m_movable (Gui.base_of obj) = false /\
    (forall b, obj = Gui.WButton b -> Gui.m_hover b = false) /\
    (forall a o, Gui.widgets g !! a = Some o -> Gui.widgets g' !! a = Some o) /\
    Gui.cout g' = Gui.cout g /\
    Gui.m_widgets ui' = Gui.m_widgets ui ++ [p].
Proof.
  eexists _, _, _, _. split; [apply add_run |].
  split. { simpl. apply lookup_ge_None. lia. }
  split.
  { unfold Gui.deref. simpl. by rewrite lookup_app_r, Nat.sub_diag. }
  split; [reflexivity |].
  repeat split; try (by destruct args).
  - intros b Hb. destruct args; [discriminate |]. by injection Hb as <-.
  - intros a o Ha. simpl. by apply lookup_app_l_Some.
Qed.

Lemma add_all_run (argss : list (Gui.WidgetArgs t_slot)) :
  forall (ui : Gui.UserInterface) g,
    Gui.m_widgets ui = Some <$> seq 0 (length (Gui.widgets g)) ->
    exists ui',
      Gui.add_all argss ui g =
        Ok (ui', {| Gui.widgets :=
                      Gui.widgets g ++ (Gui.constructed (Gui.m_theme ui) <$> argss);
                    Gui.cout := Gui.cout g |}) /\
      Gui.m_widgets ui' = Some <$> seq 0 (length (Gui.widgets g) + length argss) /\
      Gui.m_renderer ui' = Gui.m_renderer ui.
Proof.
  induction argss as [|args argss IH]; intros ui g Hinv.
  - exists ui. simpl. unfold Gui.ret. rewrite app_nil_r, Nat.add_0_r.
    split; [by destruct g | done].
  - cbn [Gui.add_all]. unfold Gui.bind at 1. rewrite add_run. cbn [snd].
    set (p := Some (length (Gui.widgets g))).
    destruct (IH {| Gui.m_widgets := Gui.m_widgets ui ++ [p];
                    Gui.m_currentMouseOver := Gui.m_currentMouseOver ui;
                    Gui.m_theme := Gui.m_theme ui;
                    Gui.m_renderer := Gui.m_renderer ui |}
                 {| Gui.widgets :=
                      Gui.widgets g ++ [Gui.constructed (Gui.m_theme ui) args];
                    Gui.cout := Gui.cout g |})
      as (ui' & Hrun & Hws & Hr); [| exists ui'; split; [| split]].
    + cbn [Gui.m_widgets Gui.widgets]. rewrite Hinv, length_app.
      cbn [length]. by rewrite Nat.add_1_r, seq_S, fmap_app.
    + rewrite Hrun. cbn [Gui.widgets Gui.cout Gui.m_theme fmap list_fmap].
      by rewrite <- app_assoc.
    + rewrite Hws. cbn [Gui.widgets]. rewrite length_app. cbn [length].
      do 2 f_equal. lia.
    + exact Hr.
Qed.

(** X20. After a new UserInterface has added widgets one after the other,
    its storage holds the address of each of them in the order they were
    added, and [render] returns after printing exactly one line for each
    added widget, in that order. *)
Theorem add_then_render (argss : list (Gui.WidgetArgs t_slot))
    (renderer : Gui.RenderUI) (theme : Gui.AppTheme) :
  exists ui g,
    Gui.add_all argss (Gui.UserInterface_ctor renderer theme)
      {| Gui.widgets := []; Gui.cout := [] |} = Ok (ui, g) /\
    Gui.widgets g = Gui.constructed theme <$> argss /\
    Gui.m_widgets ui = Some <$> seq 0 (length argss) /\
    Gui.render ui g =
      Ok (tt, {| Gui.widgets := Gui.widgets g;
                 Gui.cout := Gui.render_line <$> Gui.widgets g |}) /\
    length (Gui.render_line <$> Gui.widgets g) = length argss.
Proof.
  destruct (add_all_run argss (Gui.UserInterface_ctor renderer theme)
              {| Gui.widgets := []; Gui.cout := [] |} eq_refl)
    as (ui & Hrun & Hws & Hr).
  simpl in Hrun, Hws. eexists ui, _. split; [exact Hrun |]. simpl.
  split; [reflexivity |]. split; [exact Hws |]. split.
  - rewrite (render_prints_each_widget_aux ui _ (Gui.constructed theme <$> argss));
      [reflexivity |].
    simpl. rewrite Hws. clear.
    rewrite Forall2_fmap_l. apply Forall2_lookup. intros i.
    destruct (decide (i < length argss)) as [Hi|Hi].
    + rewrite lookup_seq_lt by exact Hi. simpl.
      destruct (lookup_lt_is_Some_2 (Gui.constructed theme <$> argss) i) as [o Ho];
        [by rewrite length_fmap |].
      rewrite Ho. constructor. exact Ho.
    + rewrite lookup_seq_ge by lia.
      rewrite (lookup_ge_None_2 (Gui.constructed theme <$> argss))
        by (rewrite length_fmap; lia).
      constructor.
  - by rewrite !length_fmap.
Qed.

End GuiFacts.

(** [Gui.main] leaves the widgets of [gui_world] and prints the lines of
    the comment above it. *)
Example gui_main_output :
  Gui.main tt {| Gui.widgets := []; Gui.cout := [] |} =
    Ok (0%Z,
        {| Gui.widgets := Gui.widgets gui_world;
           Gui.cout := ["- Rendering a Checkbox"; "- Rendering a Checkbox";
                        "- Rendering a Button"] |}).
Proof. reflexivity. Qed.

Lemma Checkbox_clicks_witness :
  exists g',
    Gui.click_times 3 (Some 0) gui_world = Ok (tt, g') /\
    Gui.Checkbox_isChecked (Some 0) g' = Ok (false, g').
Proof.
  destruct (Checkbox_clicks 3 gui_world 0 _ eq_refl) as (g' & H & Hc & _).
  by exists g'.
Defined.

Lemma hover_follows_last_event_witness :
  exists g',
    Gui.mouse_events [true; false; true] (Some 2) gui_world = Ok (tt, g') /\
    Gui.Button_isOnHover (Some 2) g' = Ok (true, g').
Proof.
  destruct (hover_follows_last_event [true; false; true] gui_world 2 _ eq_refl)
    as (g' & H & _ & _ & Hb & _).
  exists g'. split; [exact H |]. exact (Hb _ eq_refl).
Defined.

Lemma render_prints_each_widget_witness :
  Gui.render gui_ui gui_world =
    Ok (tt,
        {| Gui.widgets := Gui.widgets gui_world;
           Gui.cout := ["- Rendering a Checkbox"; "- Rendering a Checkbox";
                        "- Rendering a Button"] |}).
Proof.
  apply (render_prints_each_widget gui_ui gui_world (Gui.widgets gui_world)).
  repeat constructor.
Defined.
